(** * process-engine.js: the process instance execution graph

    A shallow embedding of [src/process-instance.js]: the runtime [Node],
    the [ProcessInstance] with its node pool, the token propagation of
    [Node.prototype.complete], persistence through [save], the
    (de)serialization of instances and the engine's [clearPool]. *)

From Stdlib Require Import ZArith String.
From stdpp Require Import gmap strings list fin_maps sorting.


(** ** JavaScript values

    Errors and variables are arbitrary JavaScript values.  The code tests
    them with [if (err)] and [if (variables)], so their truthiness is part
    of the model. *)

#[warnings="-register-all"]
Inductive JValue : Type :=
| JUndefined
| JNull
| JBool (b : bool)
| JNum (z : Z)
| JStr (s : string)
| JObj (fields : list (string * JValue)).

Definition truthy (v : JValue) : bool :=
  match v with
  | JUndefined | JNull => false
  | JBool b => b
  | JNum z => negb (Z.eqb z 0)
  | JStr s => negb (String.eqb s EmptyString)
  | JObj _ => true
  end.

(** [_.clone(value, true)]: a deep copy, rebuilding every nested object. *)
Fixpoint cloneDeep (v : JValue) : JValue :=
  match v with
  | JObj fields => JObj (map (fun kv => (fst kv, cloneDeep (snd kv))) fields)
  | _ => v
  end.

(** ** The process definition (consumed, frozen)

    A flow's [from] and [to] are references to task objects; a reference
    is the position of the task in [def.tasks]. *)

Module Flow.
Record t : Type := mk {
  from : nat;
  to : nat;
  condition : JValue -> bool
}.
End Flow.

Module Task.
Record t : Type := mk {
  id : nat;
  name : string;
  type : string;
  incomingFlows : list Flow.t;
  outgoingFlows : list Flow.t
}.
End Task.

(** The behaviours a task type can select.  [Base] is [Node] itself. *)
Inductive NodeKind : Type := Base | ServiceTask | Decision.

(** An opaque identifier assigned by the document store (always truthy). *)
Definition ObjectId : Type := nat.

Module Def.
Record t : Type := mk {
  _id : option ObjectId;
  tasks : list Task.t;
  variables : JValue;
  (** [def.engine.taskTypes]: the registry of [process-engine.js],
      taken as given; [None] is an unregistered tag. *)
  taskTypes : string -> option NodeKind
}.
End Def.

(** ** Runtime state *)

Inductive STATUS : Type := NEW | RUNNING | WAITING | COMPLETED | FAILED.

Global Instance STATUS_eq_dec : EqDecision STATUS.
Proof. solve_decision. Defined.

Module Node.
Record t : Type := mk {
  task : Task.t;
  incomingFlowCompletedNumber : nat;
  kind : NodeKind
}.
End Node.

Module Instance.
Record t : Type := mk {
  _id : option ObjectId;
  id : option nat;
  status : STATUS;
  nodePool : gmap nat Node.t;
  variables : JValue;
  error : JValue
}.
End Instance.

(** The persisted documents. *)
Module NodeEntity.
Record t : Type := mk {
  processInstance : option nat;
  incomingFlowCompletedNumber : nat;
  task : nat
}.
End NodeEntity.

Module Entity.
Record t : Type := mk {
  _id : option ObjectId;
  id : option nat;
  def : option ObjectId;
  status : STATUS;
  nodePool : list NodeEntity.t;
  variables : JValue;
  error : JValue
}.
End Entity.

(** Events an instance emits to its subscribers. *)
Inductive Event : Type :=
| Before (t : Task.t)
| After (t : Task.t)
| End_.

(** What runs once a [save] has been acknowledged by the store: the
    callback the caller attached with [.done]. *)
Inductive Callback : Type :=
| CbNone        (* [.done()] *)
| CbEmitEnd     (* [function () { this.processInstance.emit('end') }] *)
| CbStartNode.  (* [_start]: build a node on [def.tasks[0]] and execute it *)

Module Deferred.
Record t : Type := mk {
  (** for an insert, the [_id] the store assigned to the document *)
  inserted : option ObjectId;
  callback : Callback
}.
End Deferred.

(** One instance together with what it has done to the outside world:
    the events emitted so far, the store's collection and the
    acknowledgements still to be delivered by the event loop. *)
Module World.
Record t : Type := mk {
  inst : Instance.t;
  events : list Event;
  collection : list Entity.t;
  pending : list Deferred.t
}.
End World.

Definition with_inst (f : Instance.t -> Instance.t) (w : World.t) : World.t :=
  World.mk (f (World.inst w)) (World.events w) (World.collection w) (World.pending w).

Definition set_nodePool (p : gmap nat Node.t) (i : Instance.t) : Instance.t :=
  Instance.mk (Instance._id i) (Instance.id i) (Instance.status i) p
    (Instance.variables i) (Instance.error i).

Definition set_variables (v : JValue) (i : Instance.t) : Instance.t :=
  Instance.mk (Instance._id i) (Instance.id i) (Instance.status i)
    (Instance.nodePool i) v (Instance.error i).

Definition set__id (o : option ObjectId) (i : Instance.t) : Instance.t :=
  Instance.mk o (Instance.id i) (Instance.status i) (Instance.nodePool i)
    (Instance.variables i) (Instance.error i).

Definition emit (e : Event) (w : World.t) : World.t :=
  World.mk (World.inst w) (World.events w ++ [e]) (World.collection w) (World.pending w).

(** [new ProcessInstance(def)] *)
Definition newInstance (def : Def.t) : Instance.t :=
  Instance.mk None None NEW ∅ (JObj []) JNull.

(** ** Node: join condition and serialization *)

(** [Node.prototype.canExecuteNode] *)
Definition canExecuteNode (n : Node.t) : bool :=
  Nat.eqb (Node.incomingFlowCompletedNumber n)
          (length (Task.incomingFlows (Node.task n))).

(** [Node.prototype.serialize] *)
Definition Node_serialize (i : Instance.t) (n : Node.t) : NodeEntity.t :=
  NodeEntity.mk (Instance.id i) (Node.incomingFlowCompletedNumber n)
    (Task.id (Node.task n)).

(** [ProcessInstance.prototype.createNode]: unregistered types fall back
    to the base [Node]; every constructor starts the counter at 0. *)
Definition createNode (def : Def.t) (task : Task.t) : Node.t :=
  match Def.taskTypes def (Task.type task) with
  | None => Node.mk task 0 Base
  | Some k => Node.mk task 0 k
  end.

(** [Node.deserialize]: the factory looks the task up in the definition
    and builds a node for it; [node.deserialize()] of the base class does
    nothing.  A task id outside [def.tasks] makes [createNode] fail on
    [task.type]. *)
Definition Node_deserialize (def : Def.t) (entity : NodeEntity.t) : option Node.t :=
  task ← Def.tasks def !! NodeEntity.task entity;
  Some (createNode def task).

(** ** ProcessInstance: serialization *)

(** [_.forOwn] visits the integer keys of [nodePool] in ascending order. *)
Definition key_le {A : Type} (a b : nat * A) : Prop := (a.1 <= b.1)%nat.

Global Instance key_le_dec {A : Type} : RelDecision (@key_le A).
Proof. intros a b. unfold key_le. apply _. Defined.

Definition forOwn {A : Type} (p : gmap nat A) : list (nat * A) :=
  merge_sort key_le (map_to_list p).

(** [ProcessInstance.prototype.serialize] *)
Definition serialize (def : Def.t) (i : Instance.t) : Entity.t :=
  Entity.mk (Instance._id i) (Instance.id i) (Def._id def) (Instance.status i)
    (map (fun kn => Node_serialize i kn.2) (forOwn (Instance.nodePool i)))
    (Instance.variables i) (Instance.error i).

(** [ProcessInstance.deserialize], after [engine.loadProcessDefinition]
    has produced [def].  The fresh instance has no [_id]. *)
Fixpoint deserializeNodes (def : Def.t) (es : list NodeEntity.t)
    (pool : gmap nat Node.t) : option (gmap nat Node.t) :=
  match es with
  | [] => Some pool
  | e :: es' =>
      node ← Node_deserialize def e;
      deserializeNodes def es' (<[Task.id (Node.task node) := node]> pool)
  end.

Definition deserialize (def : Def.t) (entity : Entity.t) : option Instance.t :=
  pool ← deserializeNodes def (Entity.nodePool entity) ∅;
  Some (Instance.mk None (Entity.id entity) (Entity.status entity) pool
          (Entity.variables entity) (Entity.error entity)).

(** ** ProcessInstance: persistence *)

Definition replaceDoc (oid : ObjectId) (entity : Entity.t) (docs : list Entity.t)
    : list Entity.t :=
  map (fun d => if decide (Entity._id d = Some oid) then entity else d) docs.

Definition withId (oid : ObjectId) (e : Entity.t) : Entity.t :=
  Entity.mk (Some oid) (Entity.id e) (Entity.def e) (Entity.status e)
    (Entity.nodePool e) (Entity.variables e) (Entity.error e).

(** [ProcessInstance.prototype.save].  The document is the snapshot taken
    by [serialize] at the call.  The write is handed to the collection at
    once; its acknowledgement, which sets [this._id] after an insert and
    then runs the caller's [.done] callback [cb], is queued. *)
Definition save (def : Def.t) (cb : Callback) (w : World.t) : World.t :=
  let entity := serialize def (World.inst w) in
  match Entity._id entity with
  | Some oid =>
      World.mk (World.inst w) (World.events w)
        (replaceDoc oid entity (World.collection w))
        (World.pending w ++ [Deferred.mk None cb])
  | None =>
      let oid := length (World.collection w) in
      World.mk (World.inst w) (World.events w)
        (World.collection w ++ [withId oid entity])
        (World.pending w ++ [Deferred.mk (Some oid) cb])
  end.

(** [ProcessInstance.prototype.changeStatus]; an omitted [err] is
    [JUndefined]. *)
Definition setStatus (status : STATUS) (err : JValue) (i : Instance.t) : Instance.t :=
  Instance.mk (Instance._id i) (Instance.id i) status (Instance.nodePool i)
    (Instance.variables i) err.

Definition changeStatus (def : Def.t) (status : STATUS) (err : JValue)
    (cb : Callback) (w : World.t) : World.t :=
  save def cb (with_inst (setStatus status err) w).

(** ** Node: execution and token propagation *)

Fixpoint forEachM {A : Type} (f : World.t -> A -> option World.t)
    (l : list A) (w : World.t) : option World.t :=
  match l with
  | [] => Some w
  | x :: l' => w' ← f w x; forEachM f l' w'
  end.

Definition incr (n : Node.t) : Node.t :=
  Node.mk (Node.task n) (S (Node.incomingFlowCompletedNumber n)) (Node.kind n).

Section Propagation.
Variable def : Def.t.

(** [canFollowOutgoingFlow]: [true] in [Node]. *)
(** Modelled from the spec: the override of the decision node, which is
    not in [src/]: it evaluates the flow's guard on the instance's
    variables at the moment of the call. *)
Definition canFollowOutgoingFlow (self : Node.t) (flow : Flow.t) (w : World.t) : bool :=
  match Node.kind self with
  | Decision => Flow.condition flow (Instance.variables (World.inst w))
  | Base | ServiceTask => true
  end.

(** The node that receives the token of a followed flow to [to]: the
    one in the pool, else a new one. *)
Definition successor (to : Task.t) (w : World.t) : Node.t :=
  match Instance.nodePool (World.inst w) !! Task.id to with
  | Some node => node
  | None => createNode def to
  end.

(** The state once the successor is in the pool and has counted the
    arrival. *)
Definition arrive (to : Task.t) (w : World.t) : World.t :=
  with_inst (set_nodePool
    (<[Task.id to := incr (successor to w)]> (Instance.nodePool (World.inst w)))) w.

(** The callback of [this.task.outgoingFlows.forEach] in [complete];
    [exec] is [node.execute()]. *)
Definition followFlow (exec : Node.t -> World.t -> option World.t)
    (self : Node.t) (w : World.t) (flow : Flow.t) : option World.t :=
  if negb (canFollowOutgoingFlow self flow w) then Some w
  else
    to ← Def.tasks def !! Flow.to flow;
    let node := incr (successor to w) in
    let w' := arrive to w in
    if canExecuteNode node then exec node w'
    else if decide (Instance.status (World.inst w') = WAITING)
         then Some (save def CbNone w')
         else Some w'.

(** The first steps of the success path of [complete]: take the new
    variables if there are any, emit ['after'], leave the pool. *)
Definition leave (self : Node.t) (variables : JValue) (w : World.t) : World.t :=
  let w1 := if truthy variables
            then with_inst (set_variables (cloneDeep variables)) w else w in
  let w2 := emit (After (Node.task self)) w1 in
  with_inst (fun i =>
    set_nodePool (delete (Task.id (Node.task self)) (Instance.nodePool i)) i) w2.

(** [Node.prototype.complete] *)
Definition complete_with (exec : Node.t -> World.t -> option World.t)
    (self : Node.t) (err variables : JValue) (w : World.t) : option World.t :=
  if truthy err then Some (changeStatus def FAILED err CbEmitEnd w)
  else
    w4 ← forEachM (followFlow exec self) (Task.outgoingFlows (Node.task self))
           (leave self variables w);
    if String.eqb (Task.type (Node.task self)) "end-task"
    then Some (changeStatus def COMPLETED JUndefined CbEmitEnd w4)
    else Some w4.

(** [executeInternal(complete)]: [Node] calls [complete()] at once. *)
(** Modelled from the spec: the service-task node, which is not in
    [src/]: it moves the instance to WAITING, persists, and keeps the
    continuation for a later [completeTask]. *)
Definition executeInternal (self : Node.t)
    (complete : JValue -> JValue -> World.t -> option World.t) (w : World.t)
    : option World.t :=
  match Node.kind self with
  | Base | Decision => complete JUndefined JUndefined w
  | ServiceTask => Some (changeStatus def WAITING JUndefined CbNone w)
  end.

(** [Node.prototype.execute].  Execution re-enters [complete] and
    [execute] through the graph; [fuel] bounds the depth of the calls. *)
Fixpoint execute (fuel : nat) (self : Node.t) (w : World.t) : option World.t :=
  match fuel with
  | 0 => None
  | S fuel' =>
      executeInternal self (complete_with (execute fuel') self)
        (emit (Before (Node.task self)) w)
  end.

(** The continuation [this.complete.bind(this)]. *)
Definition complete (fuel : nat) := complete_with (execute fuel).

(** [ProcessInstance.prototype._start] *)
Definition _start (variables : JValue) (w : World.t) : World.t :=
  let vars := if truthy variables then variables else Def.variables def in
  changeStatus def RUNNING JUndefined CbStartNode (with_inst (set_variables vars) w).

(** One turn of the event loop: the oldest acknowledgement arrives. *)
Definition runCallback (fuel : nat) (cb : Callback) (w : World.t) : option World.t :=
  match cb with
  | CbNone => Some w
  | CbEmitEnd => Some (emit End_ w)
  | CbStartNode =>
      task0 ← Def.tasks def !! 0;
      execute fuel (Node.mk task0 0 Base) w
  end.

Definition acknowledge (d : Deferred.t) (w : World.t) : World.t :=
  match Deferred.inserted d with
  | Some oid => with_inst (set__id (Some oid)) w
  | None => w
  end.

Definition turn (fuel : nat) (w : World.t) : option World.t :=
  match World.pending w with
  | [] => Some w
  | d :: rest =>
      runCallback fuel (Deferred.callback d)
        (acknowledge d (World.mk (World.inst w) (World.events w) (World.collection w) rest))
  end.

Fixpoint turns (n fuel : nat) (w : World.t) : option World.t :=
  match n with
  | 0 => Some w
  | S n' => w' ← turn fuel w; turns n' fuel w'
  end.

(** [engineAPI.completeTask] on an instance of the live pool. *)
Definition completeTask (fuel : nat) (taskId : nat) (variables : JValue)
    (w : World.t) : option World.t :=
  node ← Instance.nodePool (World.inst w) !! taskId;
  complete fuel node JNull variables w.
End Propagation.

(** ** Engine *)

Module Engine.
Record t : Type := mk {
  nextProcessId : nat;
  processPool : gmap nat Instance.t
}.
End Engine.

(** [engineAPI.createProcessInstance] *)
Definition createProcessInstance (def : Def.t) (engine : Engine.t)
    : Instance.t * Engine.t :=
  let i := newInstance def in
  let processInstance :=
    Instance.mk (Instance._id i) (Some (Engine.nextProcessId engine))
      (Instance.status i) (Instance.nodePool i) (Instance.variables i)
      (Instance.error i) in
  (processInstance,
   Engine.mk (S (Engine.nextProcessId engine))
     (<[Engine.nextProcessId engine := processInstance]> (Engine.processPool engine))).

(** [engineAPI.clearPool]: [_.forOwn] walks the keys the pool had at the
    call and hands [processPool[key]] to the callback. *)
Definition clearPool_step (pool : option (gmap nat Instance.t)) (key : nat)
    : option (gmap nat Instance.t) :=
  p ← pool;
  instance ← p !! key;
  if decide (Instance.status instance = WAITING) then Some (delete key p)
  else if decide (Instance.status instance = COMPLETED) then Some (delete key p)
  else Some p.

Definition clearPool (engine : Engine.t) : option Engine.t :=
  pool ← foldl clearPool_step (Some (Engine.processPool engine))
            (map fst (forOwn (Engine.processPool engine)));
  Some (Engine.mk (Engine.nextProcessId engine) pool).

(** ** ProcessInstance: lookup by task name *)

(** [ProcessInstance.prototype.getNode]: [for (var key in this.nodePool)]
    visits the integer keys in ascending order and returns the first node
    whose task has the name; [None] is [undefined]. *)
Definition getNode (taskName : string) (i : Instance.t) : option Node.t :=
  snd <$> List.find (fun kn => String.eqb (Task.name (Node.task kn.2)) taskName)
            (forOwn (Instance.nodePool i)).

(** ** Engine: loading an instance *)

(** [instanceCollection.findOne({id: id})]: a document with that id, here
    the first of the list; which one the store picks among several is its
    own choice, and nothing below depends on it. *)
Definition findOne (id : nat) (collection : list Entity.t) : option Entity.t :=
  List.find (fun e => bool_decide (Entity.id e = Some id)) collection.

(** [engineAPI.loadProcessInstance], with [def] the definition the engine
    loads for the document.  The result is the instance ([None] for
    [undefined]) and the engine; the outer [None] is a failing
    [deserialize].  The loaded instance is stored under its own [id]. *)
Definition loadProcessInstance (def : Def.t) (id : nat) (engine : Engine.t)
    (collection : list Entity.t) : option (option Instance.t * Engine.t) :=
  match Engine.processPool engine !! id with
  | Some instance => Some (Some instance, engine)
  | None =>
      match findOne id collection with
      | None => Some (None, engine)
      | Some entity =>
          instance ← deserialize def entity;
          key ← Instance.id instance;
          Some (Some instance,
                Engine.mk (Engine.nextProcessId engine)
                  (<[key := instance]> (Engine.processPool engine)))
      end
  end.

(** ** What can happen to an instance *)

(** The instance is started, the event loop delivers an acknowledgement,
    or a continuation [complete] is invoked (by [completeTask] or by a
    task handler, with or without an error). *)
Inductive step (def : Def.t) : World.t → World.t → Prop :=
| step_start variables w :
    step def w (_start def variables w)
| step_turn fuel w w' :
    turn def fuel w = Some w' → step def w w'
| step_complete fuel node err variables w w' :
    complete def fuel node err variables w = Some w' → step def w w'.

Definition reachable (def : Def.t) (w : World.t) : Prop :=
  ∃ i, Instance.nodePool i = ∅ ∧ Instance.status i = NEW ∧
       rtc (step def) (World.mk i [] [] []) w.

(** * Specification vocabulary *)

(** The write [save] hands to the collection for instance [i]. *)
Definition written (def : Def.t) (i : Instance.t) (before after : list Entity.t) : Prop :=
  match Instance._id i with
  | Some oid => after = replaceDoc oid (serialize def i) before
  | None => after = before ++ [withId (length before) (serialize def i)]
  end.

(** A [save] whose acknowledgement will emit ['end'] has been issued. *)
Definition end_scheduled (w w' : World.t) : Prop :=
  ∃ d, World.pending w' = World.pending w ++ [d] ∧ Deferred.callback d = CbEmitEnd.

(** The trace of [w'] continues the trace of [w]. *)
Definition extends (w w' : World.t) : Prop :=
  ∃ tl, World.events w' = World.events w ++ tl.

(** Every successor executed while the outgoing flows are followed from
    state [start] emits its ['before'] inside [tl]. *)
Definition successors_after (def : Def.t) (fuel : nat) (self : Node.t)
    (start : World.t) (tl : list Event) : Prop :=
  ∀ earlier flow later v to,
    Task.outgoingFlows (Node.task self) = earlier ++ flow :: later →
    forEachM (followFlow def (execute def fuel) self) earlier start = Some v →
    canFollowOutgoingFlow self flow v = true →
    Def.tasks def !! Flow.to flow = Some to →
    canExecuteNode (incr (successor def to v)) = true →
    ∃ l1 l2, tl = l1 ++ Before (Node.task (successor def to v)) :: l2.

(** What a failed completion with error [err] leaves behind. *)
Definition failure_outcome (def : Def.t) (err : JValue) (w w' : World.t) : Prop :=
  Instance.status (World.inst w') = FAILED ∧
  Instance.error (World.inst w') = err ∧
  Instance.nodePool (World.inst w') = Instance.nodePool (World.inst w) ∧
  Instance.variables (World.inst w') = Instance.variables (World.inst w) ∧
  World.events w' = World.events w ∧
  written def (World.inst w') (World.collection w) (World.collection w') ∧
  end_scheduled w w'.

(** What a subscriber, a reader of the instance or a reader of the store
    can see. *)
Definition observable (w : World.t)
    : STATUS * JValue * gmap nat Node.t * list Event * list Entity.t :=
  (Instance.status (World.inst w), Instance.variables (World.inst w),
   Instance.nodePool (World.inst w), World.events w, World.collection w).

(** The instances [clearPool] is to evict. *)
Definition evicted (instance : Instance.t) : Prop :=
  Instance.status instance = WAITING ∨ Instance.status instance = COMPLETED.

(** A pool whose nodes sit under their task's id, the task being the one
    the definition has at that position. *)
Definition pool_indexed (def : Def.t) (p : gmap nat Node.t) : Prop :=
  map_Forall (fun k n =>
    Task.id (Node.task n) = k ∧ Def.tasks def !! k = Some (Node.task n)) p.

(** The node [Node.deserialize] builds in place of [n]. *)
Definition rebuilt (def : Def.t) (n : Node.t) : Node.t := createNode def (Node.task n).

(** Definitions without cycles: every flow leads to a task of the
    definition with a smaller rank. *)
Definition flows_ok (def : Def.t) (rank : nat → nat) (t : Task.t) : bool :=
  forallb (fun f =>
      match Def.tasks def !! Flow.to f with
      | Some t' => rank (Task.id t') <? rank (Task.id t)
      | None => false
      end)
    (Task.outgoingFlows t).

Definition acyclic (def : Def.t) (rank : nat → nat) : bool :=
  forallb (flows_ok def rank) (Def.tasks def).

(** Every live node sits under its task's id and belongs to the graph. *)
Definition pool_ok (def : Def.t) (rank : nat → nat) (w : World.t) : Prop :=
  map_Forall (fun k n => Task.id (Node.task n) = k ∧ flows_ok def rank (Node.task n) = true)
    (Instance.nodePool (World.inst w)).

(** * Example definitions *)

Definition noGuard : JValue → bool := fun _ => true.

Definition registry (tag : string) : option NodeKind :=
  if String.eqb tag "service-task" then Some ServiceTask
  else if String.eqb tag "decision" then Some Decision
  else None.

(** A fresh engine, one instance created, nothing done yet. *)
Definition init (def : Def.t) : World.t :=
  World.mk (createProcessInstance def (Engine.mk 0 ∅)).1 [] [] [].

(** start → step → end *)
Module Linear.
Definition f01 := Flow.mk 0 1 noGuard.
Definition f12 := Flow.mk 1 2 noGuard.
Definition start := Task.mk 0 "start" "start-task" [] [f01].
Definition step := Task.mk 1 "step" "task" [f01] [f12].
Definition end_ := Task.mk 2 "end" "end-task" [f12] [].
Definition def : Def.t := Def.mk (Some 7) [start; step; end_] (JObj []) registry.
Definition rank (i : nat) : nat := 2 - i.
End Linear.

(** start → svc (service task) → end *)
Module Service.
Definition f01 := Flow.mk 0 1 noGuard.
Definition f12 := Flow.mk 1 2 noGuard.
Definition start := Task.mk 0 "start" "start-task" [] [f01].
Definition svc := Task.mk 1 "svc" "service-task" [f01] [f12].
Definition end_ := Task.mk 2 "end" "end-task" [f12] [].
Definition def : Def.t := Def.mk (Some 7) [start; svc; end_] (JObj []) registry.
Definition rank (i : nat) : nat := 2 - i.
Definition x (z : Z) : JValue := JObj [("x", JNum z)].
End Service.

(** start → A (service task), start → B; A → join, B → join; join → end *)
Module Join.
Definition f01 := Flow.mk 0 1 noGuard.
Definition f02 := Flow.mk 0 2 noGuard.
Definition f13 := Flow.mk 1 3 noGuard.
Definition f23 := Flow.mk 2 3 noGuard.
Definition f34 := Flow.mk 3 4 noGuard.
Definition start := Task.mk 0 "start" "start-task" [] [f01; f02].
Definition A := Task.mk 1 "A" "service-task" [f01] [f13].
Definition B := Task.mk 2 "B" "task" [f02] [f23].
Definition join := Task.mk 3 "join" "task" [f13; f23] [f34].
Definition end_ := Task.mk 4 "end" "end-task" [f34] [].
Definition def : Def.t := Def.mk (Some 7) [start; A; B; join; end_] (JObj []) registry.
(** The instance after [start]: A waits for its completion, B has
    arrived at the join. *)
Definition waiting : Instance.t :=
  Instance.mk (Some 0) (Some 0) WAITING
    (<[1 := Node.mk A 1 ServiceTask]> (<[3 := Node.mk join 1 Base]> ∅))
    (JObj []) JUndefined.
End Join.

(** start → decide; decide → A if x > 0, decide → B if x ≤ 0; A → end,
    B → endB *)
Module Decide.
Definition x_of (v : JValue) : Z :=
  match v with
  | JObj (("x", JNum z) :: _) => z
  | _ => 0%Z
  end.
Definition f01 := Flow.mk 0 1 noGuard.
Definition f12 := Flow.mk 1 2 (fun v => (0 <? x_of v)%Z).
Definition f13 := Flow.mk 1 3 (fun v => (x_of v <=? 0)%Z).
Definition f24 := Flow.mk 2 4 noGuard.
Definition f35 := Flow.mk 3 5 noGuard.
Definition start := Task.mk 0 "start" "start-task" [] [f01].
Definition decide := Task.mk 1 "decide" "decision" [f01] [f12; f13].
Definition A := Task.mk 2 "A" "task" [f12] [f24].
Definition B := Task.mk 3 "B" "task" [f13] [f35].
Definition end_ := Task.mk 4 "end" "end-task" [f24] [].
Definition endB := Task.mk 5 "endB" "end-task" [f35] [].
Definition def : Def.t :=
  Def.mk (Some 7) [start; decide; A; B; end_; endB] (JObj []) registry.
End Decide.

(** start → join, start → end; the join also waits for a task that is
    never reached. *)
Module Split.
Definition f01 := Flow.mk 0 1 noGuard.
Definition f03 := Flow.mk 0 3 noGuard.
Definition f21 := Flow.mk 2 1 noGuard.
Definition start := Task.mk 0 "start" "start-task" [] [f01; f03].
Definition join := Task.mk 1 "join" "task" [f01; f21] [].
Definition other := Task.mk 2 "other" "task" [] [f21].
Definition end_ := Task.mk 3 "end" "end-task" [f03] [].
Definition def : Def.t := Def.mk (Some 7) [start; join; other; end_] (JObj []) registry.
End Split.

(** The service instance once started: WAITING on [svc], persisted. *)
Definition svcNode : Node.t := Node.mk Service.svc 1 ServiceTask.

Definition suspended : World.t :=
  World.mk
    (Instance.mk (Some 0) (Some 0) WAITING (<[1 := svcNode]> ∅) (Service.x 1) JUndefined)
    [Before Service.start; After Service.start; Before Service.svc]
    [Entity.mk (Some 0) (Some 0) (Some 7) WAITING [NodeEntity.mk (Some 0) 1 1]
       (Service.x 1) JUndefined]
    [].

(** * Further vocabulary *)

(** The variables are the same in both states. *)
Definition same_variables (w w' : World.t) : Prop :=
  Instance.variables (World.inst w') = Instance.variables (World.inst w).

(** A property of states that holds after whenever it held before. *)
Definition keeps (P : World.t → Prop) (w w' : World.t) : Prop := P w → P w'.

(** A failed instance carries a truthy error. *)
Definition failed_with_error (w : World.t) : Prop :=
  Instance.status (World.inst w) = FAILED →
  truthy (Instance.error (World.inst w)) = true.

(** Every live node has counted at least one arrival. *)
Definition arrivals_counted (w : World.t) : Prop :=
  map_Forall (fun _ n => 1 ≤ Node.incomingFlowCompletedNumber n)
    (Instance.nodePool (World.inst w)).

(** Between the two states no ['end'] was emitted and no acknowledgement
    was consumed: events and acknowledgements were only added. *)
Definition quiet (w w' : World.t) : Prop :=
  ∃ tl l, World.events w' = World.events w ++ tl ∧ (End_ ∉ tl) ∧
          World.pending w' = World.pending w ++ l.

(** The status is what it was, or it is neither RUNNING nor NEW. *)
Definition not_resumed (w w' : World.t) : Prop :=
  Instance.status (World.inst w') = Instance.status (World.inst w) ∨
  (Instance.status (World.inst w') ≠ RUNNING ∧
   Instance.status (World.inst w') ≠ NEW).

(** In a stretch of events, every ['after'] of a task comes strictly after
    a ['before'] of that task. *)
Definition befores_first (seg : list Event) : Prop :=
  ∀ i t, seg !! i = Some (After t) → ∃ j, j < i ∧ seg !! j = Some (Before t).

(** The events added between the two states are such a stretch. *)
Definition orderly (w w' : World.t) : Prop :=
  ∃ seg, World.events w' = World.events w ++ seg ∧ befores_first seg.

(** The nodes of tasks whose rank is above [r] are as before. *)
Definition above (rank : nat → nat) (r : nat) (w w' : World.t) : Prop :=
  ∀ k, r < rank k →
    Instance.nodePool (World.inst w') !! k = Instance.nodePool (World.inst w) !! k.

(** Every live instance of the engine has an id below the counter. *)
Definition ids_below (engine : Engine.t) : Prop :=
  ∀ k, is_Some (Engine.processPool engine !! k) → k < Engine.nextProcessId engine.

(** start → again, again → again: a task that flows to itself. *)
Module Loop.
Definition f01 := Flow.mk 0 1 noGuard.
Definition f11 := Flow.mk 1 1 noGuard.
Definition start := Task.mk 0 "start" "start-task" [] [f01].
Definition again := Task.mk 1 "again" "task" [f11] [f11].
Definition def : Def.t := Def.mk (Some 7) [start; again] (JObj []) registry.
End Loop.

(** * Properties *)

(** ** Persistence leaves the instance and its events alone *)

Lemma save_inst def cb w : World.inst (save def cb w) = World.inst w.
Proof. unfold save. simpl. by destruct (Instance._id (World.inst w)). Qed.

Lemma save_events def cb w : World.events (save def cb w) = World.events w.
Proof. unfold save. simpl. by destruct (Instance._id (World.inst w)). Qed.

Lemma save_pending def cb w :
  ∃ d, World.pending (save def cb w) = World.pending w ++ [d] ∧ Deferred.callback d = cb.
Proof.
  unfold save. simpl. destruct (Instance._id (World.inst w)); simpl; eauto.
Qed.

Lemma save_written def cb w :
  written def (World.inst w) (World.collection w) (World.collection (save def cb w)).
Proof.
  unfold written, save. simpl. by destruct (Instance._id (World.inst w)).
Qed.

Lemma changeStatus_inst def st err cb w :
  World.inst (changeStatus def st err cb w) = setStatus st err (World.inst w).
Proof. unfold changeStatus. by rewrite save_inst. Qed.

Lemma changeStatus_events def st err cb w :
  World.events (changeStatus def st err cb w) = World.events w.
Proof. unfold changeStatus. by rewrite save_events. Qed.

Lemma leave_events self variables w :
  World.events (leave self variables w) = World.events w ++ [After (Node.task self)].
Proof. unfold leave. simpl. by destruct (truthy variables). Qed.

Lemma leave_nodePool self variables w :
  Instance.nodePool (World.inst (leave self variables w)) =
  delete (Task.id (Node.task self)) (Instance.nodePool (World.inst w)).
Proof. unfold leave. simpl. by destruct (truthy variables). Qed.

(** ** The event trace only grows *)

Lemma extends_refl w : extends w w.
Proof. exists []. by rewrite app_nil_r. Qed.

Lemma extends_trans w1 w2 w3 : extends w1 w2 → extends w2 w3 → extends w1 w3.
Proof.
  intros [t1 H1] [t2 H2]. exists (t1 ++ t2). by rewrite H2, H1, app_assoc.
Qed.

Lemma extends_same w w' : World.events w' = World.events w → extends w w'.
Proof. intros H. exists []. by rewrite app_nil_r. Qed.

Lemma forEachM_extends {A} (f : World.t → A → option World.t) l :
  (∀ w x w', f w x = Some w' → extends w w') →
  ∀ w w', forEachM f l w = Some w' → extends w w'.
Proof.
  intros Hf. induction l as [|x l IH]; intros w w' H; simpl in H.
  - injection H as <-. apply extends_refl.
  - destruct (f w x) as [w1|] eqn:E; simpl in H; [|done].
    eapply extends_trans; eauto.
Qed.

Section Traces.
Variable def : Def.t.
Variable exec : Node.t → World.t → option World.t.
Hypothesis exec_extends : ∀ n w w', exec n w = Some w' → extends w w'.

Lemma followFlow_extends self w flow w' :
  followFlow def exec self w flow = Some w' → extends w w'.
Proof.
  unfold followFlow. destruct (negb _).
  { intros [= <-]. apply extends_refl. }
  destruct (Def.tasks def !! Flow.to flow) as [to|]; simpl; [|done].
  destruct (canExecuteNode _).
  - intros H. apply exec_extends in H. destruct H as [tl H]. by exists tl.
  - destruct (decide _); intros [= <-]; apply extends_same; by rewrite ?save_events.
Qed.

Lemma complete_with_trace self err variables w w' :
  truthy err = false →
  complete_with def exec self err variables w = Some w' →
  ∃ tl, World.events w' = World.events w ++ After (Node.task self) :: tl.
Proof.
  intros Herr. unfold complete_with. rewrite Herr.
  destruct (forEachM _ _ _) as [w4|] eqn:E; simpl; [|done].
  apply forEachM_extends in E; [|intros ????; by eapply followFlow_extends].
  destruct E as [tl E]. rewrite leave_events in E.
  destruct (String.eqb _ _); intros [= <-]; exists tl;
    rewrite ?changeStatus_events, E, <- app_assoc; done.
Qed.
End Traces.

Lemma execute_trace def fuel : ∀ self w w',
  execute def fuel self w = Some w' →
  ∃ tl, World.events w' = World.events w ++ Before (Node.task self) :: tl ∧
        (Node.kind self ≠ ServiceTask → ∃ tl', tl = After (Node.task self) :: tl').
Proof.
  induction fuel as [|fuel IH]; intros self w w' H; simpl in H; [done|].
  unfold executeInternal in H.
  assert (Hex : ∀ n w1 w2, execute def fuel n w1 = Some w2 → extends w1 w2).
  { intros n w1 w2 E. destruct (IH _ _ _ E) as (tl & Htl & _). by eexists. }
  destruct (Node.kind self).
  - apply complete_with_trace in H as [tl H]; [|done..].
    exists (After (Node.task self) :: tl). split; [|by eauto].
    by rewrite H; simpl; rewrite <- app_assoc.
  - injection H as <-. exists []. split; [|done]. by rewrite changeStatus_events.
  - apply complete_with_trace in H as [tl H]; [|done..].
    exists (After (Node.task self) :: tl). split; [|by eauto].
    by rewrite H; simpl; rewrite <- app_assoc.
Qed.

Lemma execute_extends def fuel n w w' :
  execute def fuel n w = Some w' → extends w w'.
Proof. intros H. destruct (execute_trace _ _ _ _ _ H) as (tl & Htl & _). by eexists. Qed.

Lemma complete_trace def fuel self err variables w w' :
  truthy err = false →
  complete def fuel self err variables w = Some w' →
  ∃ tl, World.events w' = World.events w ++ After (Node.task self) :: tl.
Proof.
  intros Herr H. eapply complete_with_trace; [|done|exact H].
  intros n w1 w2. apply execute_extends.
Qed.

Lemma execute_sync def fuel self w :
  Node.kind self ≠ ServiceTask →
  execute def (S fuel) self w =
  complete def fuel self JUndefined JUndefined (emit (Before (Node.task self)) w).
Proof. intros Hk. simpl. unfold executeInternal. by destruct (Node.kind self). Qed.

Lemma forEachM_app {A} (f : World.t → A → option World.t) l1 l2 w :
  forEachM f (l1 ++ l2) w = forEachM f l1 w ≫= forEachM f l2.
Proof.
  revert w. induction l1 as [|x l1 IH]; intros w; simpl; [done|].
  destruct (f w x); simpl; [apply IH|done].
Qed.

Lemma complete_trace_successors def fuel self err variables w w' :
  truthy err = false →
  complete def fuel self err variables w = Some w' →
  ∃ tl, World.events w' = World.events w ++ After (Node.task self) :: tl ∧
        successors_after def fuel self (leave self variables w) tl.
Proof.
  intros Herr Hc.
  destruct (complete_trace _ _ _ _ _ _ _ Herr Hc) as [tl Htl].
  exists tl. split; [done|].
  intros earlier flow later v to Hout Hv Hcan Hto Hjoin.
  unfold complete, complete_with in Hc. rewrite Herr, Hout, forEachM_app, Hv in Hc.
  simpl in Hc.
  destruct (followFlow _ _ _ v flow) as [v2|] eqn:E2; simpl in Hc; [|done].
  destruct (forEachM _ later v2) as [w4|] eqn:E4; simpl in Hc; [|done].
  assert (Hw' : World.events w' = World.events w4).
  { destruct (String.eqb _ _); injection Hc as <-; by rewrite ?changeStatus_events. }
  unfold followFlow in E2. rewrite Hcan, Hto in E2. simpl in E2. rewrite Hjoin in E2.
  apply execute_trace in E2 as (b & Hb & _). simpl in Hb.
  apply forEachM_extends in Hv as [a Ha];
    [|intros ????; eapply followFlow_extends; [|done]; intros ???; apply execute_extends].
  apply forEachM_extends in E4 as [c Hc4];
    [|intros ????; eapply followFlow_extends; [|done]; intros ???; apply execute_extends].
  rewrite leave_events in Ha.
  rewrite Hw', Hc4, Hb, Ha in Htl. rewrite <- !app_assoc in Htl.
  apply app_inv_head in Htl. simpl in Htl. injection Htl as Htl.
  exists a, (b ++ c). by rewrite <- Htl.
Qed.

(** ** The acknowledgement of a final save emits ['end'] *)

Lemma turn_emits_end def fuel w d :
  World.pending w = [d] → Deferred.callback d = CbEmitEnd →
  ∃ w', turn def fuel w = Some w' ∧
    World.events w' = World.events w ++ [End_] ∧
    Instance.status (World.inst w') = Instance.status (World.inst w) ∧
    Instance.error (World.inst w') = Instance.error (World.inst w) ∧
    Instance.nodePool (World.inst w') = Instance.nodePool (World.inst w).
Proof.
  intros Hp Hcb. unfold turn. rewrite Hp, Hcb. simpl.
  eexists; split; [done|]. unfold acknowledge.
  by destruct (Deferred.inserted d).
Qed.

(** ** Propagation returns on definitions without cycles *)

Lemma flows_ok_elim def rank t f :
  flows_ok def rank t = true → In f (Task.outgoingFlows t) →
  ∃ t', Def.tasks def !! Flow.to f = Some t' ∧ rank (Task.id t') < rank (Task.id t).
Proof.
  unfold flows_ok. rewrite forallb_forall. intros H Hin.
  specialize (H f Hin). destruct (Def.tasks def !! Flow.to f) as [t'|]; [|done].
  exists t'. split; [done|]. by apply Nat.ltb_lt.
Qed.

Lemma acyclic_elim def rank i t :
  acyclic def rank = true → Def.tasks def !! i = Some t → flows_ok def rank t = true.
Proof.
  unfold acyclic. rewrite forallb_forall. intros H Hi. apply H.
  apply list_elem_of_In. by eapply list_elem_of_lookup_2.
Qed.

Lemma createNode_task def t : Node.task (createNode def t) = t.
Proof. unfold createNode. by destruct (Def.taskTypes def (Task.type t)). Qed.

Lemma createNode_counter def t : Node.incomingFlowCompletedNumber (createNode def t) = 0.
Proof. unfold createNode. by destruct (Def.taskTypes def (Task.type t)). Qed.

Lemma pool_ok_same def rank w w' :
  Instance.nodePool (World.inst w') = Instance.nodePool (World.inst w) →
  pool_ok def rank w → pool_ok def rank w'.
Proof. unfold pool_ok. by intros ->. Qed.

Lemma forEachM_total {A} (P : World.t → Prop) (f : World.t → A → option World.t) l :
  (∀ w x, In x l → P w → ∃ w', f w x = Some w' ∧ P w') →
  ∀ w, P w → ∃ w', forEachM f l w = Some w' ∧ P w'.
Proof.
  induction l as [|x l IH]; intros Hf w Hw; simpl.
  - eauto.
  - destruct (Hf w x) as (w1 & -> & Hw1); [by left|done|]. simpl.
    apply IH; [|done]. intros w2 y Hy. apply Hf. by right.
Qed.

Section Total.
Variable def : Def.t.
Variable rank : nat → nat.
Hypothesis def_acyclic : acyclic def rank = true.

Section Open.
Variable exec : Node.t → World.t → option World.t.
Variable bound : nat.
Hypothesis exec_total : ∀ n w,
  flows_ok def rank (Node.task n) = true →
  rank (Task.id (Node.task n)) < bound →
  pool_ok def rank w →
  ∃ w', exec n w = Some w' ∧ pool_ok def rank w'.

Lemma successor_ok to w :
  flows_ok def rank to = true → pool_ok def rank w →
  Task.id (Node.task (successor def to w)) = Task.id to ∧
  flows_ok def rank (Node.task (successor def to w)) = true.
Proof.
  intros Hto Hw. unfold successor.
  destruct (Instance.nodePool (World.inst w) !! Task.id to) as [n|] eqn:E.
  - by apply Hw in E.
  - by rewrite createNode_task.
Qed.

Lemma arrive_ok to w :
  flows_ok def rank to = true → pool_ok def rank w →
  pool_ok def rank (arrive def to w).
Proof.
  intros Hto Hw. unfold pool_ok, arrive. simpl.
  apply map_Forall_insert_2; [|done]. simpl.
  by apply successor_ok.
Qed.

Lemma followFlow_total self w flow :
  flows_ok def rank (Node.task self) = true →
  rank (Task.id (Node.task self)) ≤ bound →
  In flow (Task.outgoingFlows (Node.task self)) →
  pool_ok def rank w →
  ∃ w', followFlow def exec self w flow = Some w' ∧ pool_ok def rank w'.
Proof.
  intros Hself Hrank Hin Hw. unfold followFlow.
  destruct (negb _); [eauto|].
  destruct (flows_ok_elim _ _ _ _ Hself Hin) as (to & Hto & Hlt).
  rewrite Hto. simpl.
  assert (Hok : flows_ok def rank to = true) by (by eapply acyclic_elim).
  destruct (successor_ok to w Hok Hw) as [Hid Hfl].
  pose proof (arrive_ok to w Hok Hw) as Hw'.
  destruct (canExecuteNode _).
  - apply exec_total; simpl; [done| |done]. rewrite Hid. lia.
  - destruct (decide _); eexists; split; try done.
    eapply pool_ok_same; [|exact Hw']. by rewrite save_inst.
Qed.

Lemma complete_with_total self err variables w :
  flows_ok def rank (Node.task self) = true →
  rank (Task.id (Node.task self)) ≤ bound →
  pool_ok def rank w →
  ∃ w', complete_with def exec self err variables w = Some w' ∧ pool_ok def rank w'.
Proof.
  intros Hself Hrank Hw. unfold complete_with.
  destruct (truthy err).
  { eexists; split; [done|]. eapply pool_ok_same; [|exact Hw].
    by rewrite changeStatus_inst. }
  assert (Hw3 : pool_ok def rank (leave self variables w)).
  { unfold pool_ok. rewrite leave_nodePool. by apply map_Forall_delete. }
  destruct (forEachM_total (pool_ok def rank) (followFlow def exec self)
              (Task.outgoingFlows (Node.task self)))
    with (w := leave self variables w)
    as (w4 & -> & Hw4); [|done|].
  { intros w' x Hx Hw'. by apply followFlow_total. }
  simpl. destruct (String.eqb _ _); eexists; split; try done.
  eapply pool_ok_same; [|exact Hw4]. by rewrite changeStatus_inst.
Qed.
End Open.

Lemma execute_total fuel : ∀ self w,
  flows_ok def rank (Node.task self) = true →
  rank (Task.id (Node.task self)) < fuel →
  pool_ok def rank w →
  ∃ w', execute def fuel self w = Some w' ∧ pool_ok def rank w'.
Proof.
  induction fuel as [|fuel IH]; intros self w Hself Hrank Hw; [lia|].
  simpl. unfold executeInternal.
  assert (Hc : ∀ e v, ∃ w', complete_with def (execute def fuel) self e v
              (emit (Before (Node.task self)) w) = Some w' ∧ pool_ok def rank w').
  { intros e v. apply complete_with_total with (bound := fuel); [|done|lia|done].
    intros n w1 Hn Hr Hw1. by apply IH. }
  destruct (Node.kind self); [apply Hc| |apply Hc].
  eexists; split; [done|]. eapply pool_ok_same; [|exact Hw].
  by rewrite changeStatus_inst.
Qed.

Lemma complete_total fuel self err variables w :
  flows_ok def rank (Node.task self) = true →
  rank (Task.id (Node.task self)) ≤ fuel →
  pool_ok def rank w →
  ∃ w', complete def fuel self err variables w = Some w' ∧ pool_ok def rank w'.
Proof.
  intros Hself Hrank Hw. unfold complete.
  apply complete_with_total with (bound := fuel); [|done..].
  intros n w1 Hn Hr Hw1. by apply execute_total.
Qed.
End Total.

(** ** What propagation keeps *)

(** A relation between the state before and after that holds across every
    elementary effect of the success path holds across a whole
    propagation. *)
Section Propagated.
Variable def : Def.t.
Variable R : relation World.t.
Context `{!PreOrder R}.
Hypothesis R_before : ∀ t w, R w (emit (Before t) w).
Hypothesis R_leave : ∀ self w, R w (leave self JUndefined w).
Hypothesis R_arrive : ∀ to w, R w (arrive def to w).
Hypothesis R_save : ∀ w, R w (save def CbNone w).
Hypothesis R_completed : ∀ w, R w (changeStatus def COMPLETED JUndefined CbEmitEnd w).
Hypothesis R_waiting : ∀ w, R w (changeStatus def WAITING JUndefined CbNone w).

Lemma forEachM_rel {A} (f : World.t → A → option World.t) l :
  (∀ w x w', f w x = Some w' → R w w') →
  ∀ w w', forEachM f l w = Some w' → R w w'.
Proof.
  intros Hf. induction l as [|x l IH]; intros w w' H; simpl in H.
  - injection H as <-. reflexivity.
  - destruct (f w x) as [w1|] eqn:E; simpl in H; [|done].
    etrans; [exact (Hf _ _ _ E)|exact (IH _ _ H)].
Qed.

Lemma followFlow_rel exec self w flow w' :
  (∀ n v v', exec n v = Some v' → R v v') →
  followFlow def exec self w flow = Some w' → R w w'.
Proof.
  intros Hexec. unfold followFlow. destruct (negb _).
  { intros [= <-]. reflexivity. }
  destruct (Def.tasks def !! Flow.to flow) as [to|]; simpl; [|done].
  destruct (canExecuteNode _).
  - intros H. etrans; [apply R_arrive|exact (Hexec _ _ _ H)].
  - destruct (decide _); intros [= <-]; [|apply R_arrive].
    etrans; [apply R_arrive|apply R_save].
Qed.

Lemma complete_with_rel exec self err variables w w' :
  (∀ n v v', exec n v = Some v' → R v v') →
  truthy err = false →
  complete_with def exec self err variables w = Some w' →
  R (leave self variables w) w'.
Proof.
  intros Hexec Herr. unfold complete_with. rewrite Herr.
  destruct (forEachM _ _ _) as [w4|] eqn:E; simpl; [|done].
  apply forEachM_rel in E; [|intros ????; by eapply followFlow_rel].
  destruct (String.eqb _ _); intros [= <-]; [|done].
  etrans; [exact E|apply R_completed].
Qed.

Lemma execute_rel fuel : ∀ n w w', execute def fuel n w = Some w' → R w w'.
Proof.
  induction fuel as [|fuel IH]; intros n w w' H; simpl in H; [done|].
  unfold executeInternal in H.
  assert (Hc : complete_with def (execute def fuel) n JUndefined JUndefined
                 (emit (Before (Node.task n)) w) = Some w' → R w w').
  { intros Hc. apply complete_with_rel in Hc; [|done..].
    etrans; [apply R_before|]. etrans; [apply R_leave|exact Hc]. }
  destruct (Node.kind n); [by apply Hc| |by apply Hc].
  injection H as <-. etrans; [apply R_before|apply R_waiting].
Qed.

Lemma complete_rel fuel self err variables w w' :
  truthy err = false →
  complete def fuel self err variables w = Some w' →
  R (leave self variables w) w'.
Proof. intros Herr. apply complete_with_rel; [apply execute_rel|done]. Qed.
End Propagated.

(** * The example states are reached by running the engine *)

Example suspended_reached :
  turns Service.def 2 3 (_start Service.def (Service.x 1) (init Service.def))
  = Some suspended.
Proof. vm_compute. reflexivity. Qed.

Example waiting_reached :
  World.inst <$> turns Join.def 2 3 (_start Join.def JUndefined (init Join.def))
  = Some Join.waiting.
Proof. vm_compute. reflexivity. Qed.

(** The scenarios of a linear run, an AND-join completed after a resume,
    and a decision with one matching branch. *)
Example linear_run :
  World.events <$> turns Linear.def 2 3 (_start Linear.def JUndefined (init Linear.def)) =
  Some [Before Linear.start; After Linear.start; Before Linear.step; After Linear.step;
        Before Linear.end_; After Linear.end_; End_].
Proof. vm_compute. reflexivity. Qed.

Example service_resume :
  (fun w => (World.events w, Instance.status (World.inst w),
             Instance.variables (World.inst w)))
    <$> (completeTask Service.def 2 1 (Service.x 2) suspended ≫= turns Service.def 1 0) =
  Some ([Before Service.start; After Service.start; Before Service.svc;
         After Service.svc; Before Service.end_; After Service.end_; End_],
        COMPLETED, Service.x 2).
Proof. vm_compute. reflexivity. Qed.

Example decision_run :
  World.events <$> turns Decide.def 2 4 (_start Decide.def (Service.x 5) (init Decide.def)) =
  Some [Before Decide.start; After Decide.start; Before Decide.decide; After Decide.decide;
        Before Decide.A; After Decide.A; Before Decide.end_; After Decide.end_; End_].
Proof. vm_compute. reflexivity. Qed.

(** A deep copy is equal to its original. *)
Lemma cloneDeep_id : ∀ v, cloneDeep v = v.
Proof.
  fix IH 1. intros [| | | | |fields]; simpl; try done.
  f_equal. induction fields as [|[k x] l IHl]; simpl; [done|].
  by rewrite IH, IHl.
Qed.

(** * The join condition *)

(** C3: for every node, [canExecuteNode] answers true if and only if its
    [incomingFlowCompletedNumber] equals the number of incoming flows of
    its task: an AND-join over all incoming flows. *)
Theorem canExecuteNode_and_join (n : Node.t) :
  canExecuteNode n = true ↔
  Node.incomingFlowCompletedNumber n = length (Task.incomingFlows (Node.task n)).
Proof. unfold canExecuteNode. apply Nat.eqb_eq. Qed.

(** * Status changes *)


(** * Completion with an error *)

Lemma complete_error_outcome def fuel self err variables w :
  truthy err = true →
  complete def fuel self err variables w =
    Some (changeStatus def FAILED err CbEmitEnd w).
Proof. intros H. unfold complete, complete_with. by rewrite H. Qed.

Lemma complete_with_error_outcome_aux def fuel self err variables w :
  truthy err = true →
  ∃ w', complete def fuel self err variables w = Some w' ∧
    failure_outcome def err w w'.
Proof.
  intros Herr. rewrite complete_error_outcome by done.
  eexists; split; [done|].
  unfold failure_outcome. rewrite changeStatus_inst, changeStatus_events.
  repeat split; try done.
  - exact (save_written def CbEmitEnd (with_inst (setStatus FAILED err) w)).
  - apply (save_pending def CbEmitEnd (with_inst (setStatus FAILED err) w)).
Qed.

(** C4, as the code has it: when [complete] is invoked with a truthy
    error E, the status becomes FAILED with error E, the instance is
    persisted, and that is all that happens at the call: no ['after'] is
    emitted, the node stays in the pool, the variables are kept and no
    outgoing flow is followed.  ['end'] is emitted when the store
    acknowledges the write. *)
Theorem complete_with_error_fails def fuel self err variables w :
  truthy err = true →
  ∃ w', complete def fuel self err variables w = Some w' ∧
    failure_outcome def err w w' ∧
    (World.pending w = [] →
     ∀ fuel', ∃ w'', turn def fuel' w' = Some w'' ∧
       World.events w'' = World.events w ++ [End_] ∧
       Instance.status (World.inst w'') = FAILED ∧
       Instance.error (World.inst w'') = err ∧
       Instance.nodePool (World.inst w'') = Instance.nodePool (World.inst w)).
Proof.
  intros Herr.
  destruct (complete_with_error_outcome_aux def fuel self err variables w Herr)
    as (w' & Hw' & Hout).
  exists w'. split; [done|]. split; [done|].
  intros Hp fuel'. destruct Hout as (Hst & He & Hpool & _ & Hev & _ & d & Hd & Hcb).
  rewrite Hp in Hd. simpl in Hd.
  destruct (turn_emits_end def fuel' _ d Hd Hcb) as (w'' & Ht & E1 & E2 & E3 & E4).
  exists w''. rewrite E1, E2, E3, E4, Hev. done.
Qed.

(** C4, as stated, fails for an error that is not null but falsy: with the
    empty string as error the routine takes the success path, the instance
    does not fail and ['after'] is emitted. *)
Lemma complete_empty_error_not_failed :
  JStr EmptyString ≠ JNull ∧
  ∃ w', complete Service.def 2 svcNode (JStr EmptyString) JUndefined suspended = Some w' ∧
    Instance.status (World.inst w') = COMPLETED ∧
    World.events w' = World.events suspended ++
      [After Service.svc; Before Service.end_; After Service.end_] ∧
    ¬ failure_outcome Service.def (JStr EmptyString) suspended w'.
Proof.
  split; [discriminate|].
  eexists. split; [vm_compute; reflexivity|].
  split; [reflexivity|]. split; [reflexivity|].
  intros (Hst & _). vm_compute in Hst. discriminate.
Qed.

Lemma complete_with_error_fails_witness :
  ∃ w', complete Service.def 2 svcNode (JStr "timeout") (Service.x 2) suspended = Some w' ∧
    failure_outcome Service.def (JStr "timeout") suspended w' ∧
    (World.pending suspended = [] →
     ∀ fuel', ∃ w'', turn Service.def fuel' w' = Some w'' ∧
       World.events w'' = World.events suspended ++ [End_] ∧
       Instance.status (World.inst w'') = FAILED ∧
       Instance.error (World.inst w'') = JStr "timeout" ∧
       Instance.nodePool (World.inst w'') = Instance.nodePool (World.inst suspended)).
Proof.
  apply (complete_with_error_fails Service.def 2 svcNode (JStr "timeout")
           (Service.x 2) suspended).
  reflexivity.
Defined.

(** * Token propagation *)

Lemma successor_default def to w :
  successor def to w =
  default (createNode def to) (Instance.nodePool (World.inst w) !! Task.id to).
Proof.
  unfold successor. by destruct (Instance.nodePool (World.inst w) !! Task.id to).
Qed.

(** C2: when [complete] runs with no error, the outgoing flows of the
    completed task are processed in definition order.  A flow is skipped
    (the state is left as it is) exactly when [canFollowOutgoingFlow] is
    false; otherwise the successor for [flow.to] is the node found in
    [nodePool] or, if there is none, a new node that is inserted; its
    counter is incremented by one; and it is executed at once exactly when
    its join condition then holds (else nothing is emitted). *)
Theorem follow_outgoing_flows def fuel self err variables w :
  truthy err = false →
  let F := followFlow def (execute def fuel) self in
  complete def fuel self err variables w =
    (forEachM F (Task.outgoingFlows (Node.task self)) (leave self variables w)
       ≫= fun w4 =>
       if String.eqb (Task.type (Node.task self)) "end-task"
       then Some (changeStatus def COMPLETED JUndefined CbEmitEnd w4)
       else Some w4) ∧
  (∀ earlier flow later v,
     Task.outgoingFlows (Node.task self) = earlier ++ flow :: later →
     forEachM F (Task.outgoingFlows (Node.task self)) v =
       (v1 ← forEachM F earlier v; v2 ← F v1 flow; forEachM F later v2)) ∧
  ∀ v flow,
    (canFollowOutgoingFlow self flow v = false → F v flow = Some v) ∧
    (canFollowOutgoingFlow self flow v = true →
     ∀ to, Def.tasks def !! Flow.to flow = Some to →
       let pool := Instance.nodePool (World.inst v) in
       let node := incr (default (createNode def to) (pool !! Task.id to)) in
       Instance.nodePool (World.inst (arrive def to v)) = <[Task.id to := node]> pool ∧
       Node.incomingFlowCompletedNumber node =
         S (default 0 (Node.incomingFlowCompletedNumber <$> pool !! Task.id to)) ∧
       (canExecuteNode node = true →
          F v flow = execute def fuel node (arrive def to v) ∧
          ∀ v', F v flow = Some v' →
            ∃ tl, World.events v' = World.events v ++ Before (Node.task node) :: tl) ∧
       (canExecuteNode node = false →
          ∃ v', F v flow = Some v' ∧
            World.events v' = World.events v ∧
            World.inst v' = World.inst (arrive def to v))).
Proof.
  intros Herr F. split; [|split].
  - unfold complete, complete_with. by rewrite Herr.
  - intros earlier flow later v ->. by rewrite forEachM_app.
  - intros v flow. subst F. unfold followFlow. split.
    + by intros ->.
    + intros -> to Hto. rewrite Hto. simpl.
      rewrite successor_default.
      set (node := incr (default _ _)).
      split; [|split; [|split]].
      * done.
      * subst node. simpl.
        destruct (Instance.nodePool (World.inst v) !! Task.id to); simpl; [done|].
        by rewrite createNode_counter.
      * intros ->. split; [done|].
        intros v' Hv'. apply execute_trace in Hv' as (tl & Htl & _). by exists tl.
      * intros ->. destruct (decide _); eexists; split; try done.
        by rewrite save_events, save_inst.
Qed.

Lemma follow_outgoing_flows_witness :
  complete Join.def 3 (Node.mk Join.start 0 Base) JUndefined JUndefined (init Join.def) =
    (forEachM (followFlow Join.def (execute Join.def 3) (Node.mk Join.start 0 Base))
       [Join.f01; Join.f02]
       (leave (Node.mk Join.start 0 Base) JUndefined (init Join.def))
       ≫= fun w4 => Some w4).
Proof.
  exact (proj1 (follow_outgoing_flows Join.def 3 (Node.mk Join.start 0 Base)
                  JUndefined JUndefined (init Join.def) eq_refl)).
Defined.

(** * Completion of the end task *)

(** C5: when a task of type ['end-task'] completes without error, the
    status becomes COMPLETED, the instance is persisted, and ['end'] is
    emitted when the store acknowledges that write.  On a definition
    without cycles the routine does return. *)
Theorem end_task_completes def fuel self err variables w :
  truthy err = false →
  Task.type (Node.task self) = "end-task" →
  (∀ w', complete def fuel self err variables w = Some w' →
     ∃ w4,
       extends w w4 ∧
       World.inst w' = setStatus COMPLETED JUndefined (World.inst w4) ∧
       Instance.status (World.inst w') = COMPLETED ∧
       written def (World.inst w') (World.collection w4) (World.collection w') ∧
       end_scheduled w4 w' ∧
       World.events w' = World.events w4 ∧
       (World.pending w4 = [] →
        ∀ fuel', ∃ w'', turn def fuel' w' = Some w'' ∧
          World.events w'' = World.events w' ++ [End_] ∧
          Instance.status (World.inst w'') = COMPLETED)) ∧
  (∀ rank,
     acyclic def rank = true →
     flows_ok def rank (Node.task self) = true →
     rank (Task.id (Node.task self)) ≤ fuel →
     pool_ok def rank w →
     ∃ w', complete def fuel self err variables w = Some w').
Proof.
  intros Herr Htype. split.
  - intros w' Hc. unfold complete, complete_with in Hc. rewrite Herr in Hc.
    apply String.eqb_eq in Htype. rewrite Htype in Hc.
    destruct (forEachM _ _ _) as [w4|] eqn:E; simpl in Hc; [|done].
    injection Hc as <-.
    apply forEachM_extends in E;
      [|intros ????; eapply followFlow_extends; [|done]; intros ???; apply execute_extends].
    exists w4. split.
    { eapply extends_trans; [|exact E]. exists [After (Node.task self)].
      apply leave_events. }
    rewrite changeStatus_inst, changeStatus_events.
    pose proof (save_pending def CbEmitEnd (with_inst (setStatus COMPLETED JUndefined) w4))
      as (d & Hd & Hcb).
    repeat split; try done.
    + exact (save_written def CbEmitEnd (with_inst (setStatus COMPLETED JUndefined) w4)).
    + by exists d.
    + intros Hp fuel'. simpl in Hd. rewrite Hp in Hd.
      destruct (turn_emits_end def fuel' _ d Hd Hcb) as (w'' & Ht & E1 & E2 & _).
      exists w''. rewrite E1, E2, save_inst, save_events. done.
  - intros rank Hacyc Hself Hrank Hw.
    destruct (complete_total def rank Hacyc fuel self err variables w Hself Hrank Hw)
      as (w' & Hc & _).
    by exists w'.
Qed.

Lemma end_task_completes_witness :
  let self := Node.mk Linear.end_ 1 Base in
  let w := init Linear.def in
  (∀ w', complete Linear.def 0 self JUndefined JUndefined w = Some w' →
     ∃ w4,
       extends w w4 ∧
       World.inst w' = setStatus COMPLETED JUndefined (World.inst w4) ∧
       Instance.status (World.inst w') = COMPLETED ∧
       written Linear.def (World.inst w') (World.collection w4) (World.collection w') ∧
       end_scheduled w4 w' ∧
       World.events w' = World.events w4 ∧
       (World.pending w4 = [] →
        ∀ fuel', ∃ w'', turn Linear.def fuel' w' = Some w'' ∧
          World.events w'' = World.events w' ++ [End_] ∧
          Instance.status (World.inst w'') = COMPLETED)) ∧
  (∀ rank,
     acyclic Linear.def rank = true →
     flows_ok Linear.def rank Linear.end_ = true →
     rank 2 ≤ 0 →
     pool_ok Linear.def rank w →
     ∃ w', complete Linear.def 0 self JUndefined JUndefined w = Some w').
Proof.
  intros self w.
  apply (end_task_completes Linear.def 0 self JUndefined JUndefined w); reflexivity.
Defined.

(** On the linear definition the hypotheses of the second part hold. *)
Example linear_is_acyclic :
  acyclic Linear.def Linear.rank = true ∧
  flows_ok Linear.def Linear.rank Linear.end_ = true ∧
  Linear.rank 2 ≤ 0 ∧
  pool_ok Linear.def Linear.rank (init Linear.def).
Proof.
  split; [reflexivity|]. split; [reflexivity|]. split; [vm_compute; lia|].
  apply map_Forall_empty.
Qed.

(** * Order of the events *)

Lemma befores_first_nil : befores_first [].
Proof. intros i t H. by rewrite lookup_nil in H. Qed.

Lemma befores_first_app s1 s2 :
  befores_first s1 → befores_first s2 → befores_first (s1 ++ s2).
Proof.
  intros H1 H2 i t Hi. apply lookup_app_Some in Hi as [Hi|[Hle Hi]].
  - destruct (H1 _ _ Hi) as (j & Hj & Hb). exists j. split; [done|].
    by apply lookup_app_l_Some.
  - destruct (H2 _ _ Hi) as (j & Hj & Hb). exists (length s1 + j). split; [lia|].
    rewrite lookup_app_r by lia. by replace (length s1 + j - length s1) with j by lia.
Qed.

Lemma befores_first_before t s : befores_first s → befores_first (Before t :: s).
Proof.
  intros H. apply (befores_first_app [Before t] s); [|done].
  intros [|[|i]] t' Hi; simpl in Hi; done.
Qed.

Lemma befores_first_pair t s :
  befores_first s → befores_first (Before t :: After t :: s).
Proof.
  intros H. apply (befores_first_app [Before t; After t] s); [|done].
  intros [|[|[|i]]] t' Hi; simpl in Hi; try done.
  injection Hi as <-. exists 0. split; [lia|done].
Qed.

Local Instance orderly_preorder : PreOrder orderly.
Proof.
  split.
  - intros w. exists []. split; [by rewrite app_nil_r|apply befores_first_nil].
  - intros w1 w2 w3 (s1 & E1 & H1) (s2 & E2 & H2). exists (s1 ++ s2).
    split; [by rewrite E2, E1, app_assoc|by apply befores_first_app].
Qed.

Lemma orderly_same w w' : World.events w' = World.events w → orderly w w'.
Proof.
  intros H. exists []. split; [by rewrite app_nil_r|apply befores_first_nil].
Qed.

Lemma complete_with_orderly def exec self err variables w w' :
  (∀ n v v', exec n v = Some v' → orderly v v') →
  truthy err = false →
  complete_with def exec self err variables w = Some w' →
  ∃ tl, World.events w' = World.events w ++ After (Node.task self) :: tl ∧
        befores_first tl.
Proof.
  intros Hexec Herr. unfold complete_with. rewrite Herr.
  destruct (forEachM _ _ _) as [w4|] eqn:E; simpl; [|done].
  apply (forEachM_rel orderly) in E.
  - destruct E as (tl & Htl & Hord). rewrite leave_events in Htl.
    destruct (String.eqb _ _); intros [= <-]; exists tl;
      rewrite ?changeStatus_events, Htl, <- app_assoc; done.
  - intros v flow v'. apply (followFlow_rel def orderly); [| |done].
    + intros to v0. by apply orderly_same.
    + intros v0. apply orderly_same, save_events.
Qed.

Lemma execute_orderly def fuel : ∀ n w w',
  execute def fuel n w = Some w' →
  ∃ tl, World.events w' = World.events w ++ Before (Node.task n) :: tl ∧
        befores_first (Before (Node.task n) :: tl).
Proof.
  induction fuel as [|fuel IH]; intros n w w' H; simpl in H; [done|].
  unfold executeInternal in H.
  assert (Hc : complete_with def (execute def fuel) n JUndefined JUndefined
                 (emit (Before (Node.task n)) w) = Some w' →
    ∃ tl, World.events w' = World.events w ++ Before (Node.task n) :: tl ∧
          befores_first (Before (Node.task n) :: tl)).
  { intros Hc. apply complete_with_orderly in Hc as (tl & Htl & Hord); [| |done].
    - exists (After (Node.task n) :: tl). split.
      + by rewrite Htl; simpl; rewrite <- app_assoc.
      + by apply befores_first_pair.
    - intros m v v' Hm. destruct (IH _ _ _ Hm) as (tl & Htl & Hord). by eexists. }
  destruct (Node.kind n); [by apply Hc| |by apply Hc].
  injection H as <-. exists []. split; [by rewrite changeStatus_events|].
  apply befores_first_before, befores_first_nil.
Qed.

(** C7, as stated, fails for a node that is completed without having been
    executed: after the run of the split example the join sits in
    [nodePool] with one of two arrivals; [completeTask] on it emits
    ['after'] of the join, and no ['before'] of the join was ever
    emitted. *)
Lemma after_without_before :
  ∃ w0 w,
    turns Split.def 2 3 (_start Split.def JUndefined (init Split.def)) = Some w0 ∧
    completeTask Split.def 0 1 JUndefined w0 = Some w ∧
    reachable Split.def w ∧
    World.events w =
      [Before Split.start; After Split.start; Before Split.end_; After Split.end_;
       End_; After Split.join] ∧
    Before Split.join ∉ World.events w.
Proof.
  eexists. eexists. split; [vm_compute; reflexivity|].
  split; [vm_compute; reflexivity|]. split; [|split; [reflexivity|]].
  - exists (World.inst (init Split.def)).
    split; [reflexivity|]. split; [reflexivity|].
    eapply rtc_l; [apply (step_start _ JUndefined)|].
    eapply rtc_l; [apply (step_turn _ 3); vm_compute; reflexivity|].
    eapply rtc_l; [apply (step_turn _ 3); vm_compute; reflexivity|].
    eapply rtc_l; [|apply rtc_refl].
    apply (step_complete _ 0 (Node.mk Split.join 1 Base) JNull JUndefined).
    vm_compute. reflexivity.
  - intros H. cbn [World.events] in H.
    repeat (apply elem_of_cons in H as [H|H]; [by inversion H|]).
    by apply elem_of_nil in H.
Qed.

(** C7, as the code has it: for a node that was executed, ['before'](T)
    is emitted strictly before ['after'](T), and ['after'](T) strictly
    before the ['before'] of every successor executed as a result of the
    completion of T.  [execute] emits ['before'](T) first, and in all it
    emits every ['after'] follows a ['before'] of the same task; a node
    that completes in the same call does so by calling [complete] right
    then, so ['after'](T) is next; and whenever the continuation
    [complete] of the executed node runs, ['after'](T) is the first event
    it adds, the ['before'] of each successor it executes follows, and in
    what follows every ['after'] again comes after its ['before']. *)
Theorem before_after_order def fuel fuel' self err variables w w1 w2 w3 :
  execute def fuel self w = Some w1 →
  extends w1 w2 →
  truthy err = false →
  complete def fuel' self err variables w2 = Some w3 →
  (∃ tl, World.events w1 = World.events w ++ Before (Node.task self) :: tl ∧
     befores_first (Before (Node.task self) :: tl) ∧
     (Node.kind self ≠ ServiceTask →
      (∃ tl', tl = After (Node.task self) :: tl') ∧
      ∃ fuel0, fuel = S fuel0 ∧
        complete def fuel0 self JUndefined JUndefined
          (emit (Before (Node.task self)) w) = Some w1)) ∧
  (∃ mid tl,
     World.events w3 =
       World.events w ++ Before (Node.task self) :: mid ++ After (Node.task self) :: tl ∧
     World.events w3 = World.events w2 ++ After (Node.task self) :: tl ∧
     befores_first tl ∧
     successors_after def fuel' self (leave self variables w2) tl).
Proof.
  intros Hex [m Hm] Herr Hc.
  destruct (execute_trace _ _ _ _ _ Hex) as (tl & Htl & Hsync).
  split.
  - exists tl. split; [done|]. split.
    + destruct (execute_orderly _ _ _ _ _ Hex) as (tl0 & Htl0 & Hord).
      rewrite Htl in Htl0. apply app_inv_head in Htl0. injection Htl0 as ->. done.
    + intros Hk. split; [by apply Hsync|].
      destruct fuel as [|fuel0]; [done|]. exists fuel0. split; [done|].
      by rewrite <- execute_sync.
  - destruct (complete_trace_successors _ _ _ _ _ _ _ Herr Hc) as (tl3 & H3 & Hsucc).
    exists (tl ++ m), tl3. split; [|split; [done|split; [|done]]].
    + rewrite H3, Hm, Htl. by rewrite <- !app_assoc.
    + apply complete_with_orderly in Hc as (tl0 & Htl0 & Hord); [| |done].
      * rewrite H3 in Htl0. apply app_inv_head in Htl0. injection Htl0 as ->. done.
      * intros n v v' Hn. destruct (execute_orderly _ _ _ _ _ Hn) as (t0 & Ht0 & Ho).
        by eexists.
Qed.

Lemma before_after_order_witness :
  let w := init Service.def in
  let w1 := default w (execute Service.def 1 svcNode w) in
  let w3 := default w (complete Service.def 2 svcNode JNull (Service.x 2) w1) in
  (∃ tl, World.events w1 = World.events w ++ Before Service.svc :: tl ∧
     befores_first (Before Service.svc :: tl) ∧
     (ServiceTask ≠ ServiceTask →
      (∃ tl', tl = After Service.svc :: tl') ∧
      ∃ fuel0, 1 = S fuel0 ∧
        complete Service.def fuel0 svcNode JUndefined JUndefined
          (emit (Before Service.svc) w) = Some w1)) ∧
  (∃ mid tl,
     World.events w3 =
       World.events w ++ Before Service.svc :: mid ++ After Service.svc :: tl ∧
     World.events w3 = World.events w1 ++ After Service.svc :: tl ∧
     befores_first tl ∧
     successors_after Service.def 2 svcNode (leave svcNode (Service.x 2) w1) tl).
Proof.
  intros w w1 w3.
  apply (before_after_order Service.def 1 2 svcNode JNull (Service.x 2) w w1 w1 w3).
  - vm_compute. reflexivity.
  - apply extends_refl.
  - reflexivity.
  - vm_compute. reflexivity.
Defined.

(** * Invoking the continuation twice *)

(** C8, as stated, fails: completing the waiting service task a second
    time with the same arguments emits ['after'] again and runs the end
    task again. *)
Lemma complete_twice_differs :
  ∃ w1 w2,
    complete Service.def 2 svcNode JNull (Service.x 2) suspended = Some w1 ∧
    complete Service.def 2 svcNode JNull (Service.x 2) w1 = Some w2 ∧
    World.events w2 = World.events w1 ++
      [After Service.svc; Before Service.end_; After Service.end_] ∧
    observable w2 ≠ observable w1.
Proof.
  eexists. eexists. split; [vm_compute; reflexivity|].
  split; [vm_compute; reflexivity|].
  split; [vm_compute; reflexivity|].
  intros H. apply (f_equal (fun o => length o.1.2)) in H.
  vm_compute in H. discriminate.
Qed.

(** C8, as the code has it: the routine has no guard against a second
    delivery.  Every invocation that takes the success path emits
    ['after'](T) again (and follows the flows again); every invocation
    with a truthy error persists again and schedules another ['end'].  So
    a second invocation is never a no-op: the events emitted or still to
    be emitted differ from those after one invocation. *)
Theorem complete_twice_repeats def fuel self err variables w w1 w2 :
  complete def fuel self err variables w = Some w1 →
  complete def fuel self err variables w1 = Some w2 →
  (truthy err = false →
     ∃ tl, World.events w2 = World.events w1 ++ After (Node.task self) :: tl) ∧
  (truthy err = true → failure_outcome def err w1 w2) ∧
  (World.events w2, World.pending w2) ≠ (World.events w1, World.pending w1).
Proof.
  intros _ H2. destruct (truthy err) eqn:Herr.
  - destruct (complete_with_error_outcome_aux def fuel self err variables w1 Herr)
      as (w' & Hw' & Hout).
    rewrite Hw' in H2. injection H2 as <-.
    split; [done|]. split; [done|].
    destruct Hout as (_ & _ & _ & _ & _ & _ & d & Hd & _).
    intros [= _ Hp]. rewrite Hp in Hd.
    apply (f_equal length) in Hd. rewrite length_app in Hd. simpl in Hd. lia.
  - destruct (complete_trace _ _ _ _ _ _ _ Herr H2) as [tl Htl].
    split; [by eauto|]. split; [done|].
    intros [= He _]. rewrite He in Htl.
    apply (f_equal length) in Htl. rewrite length_app in Htl. simpl in Htl. lia.
Qed.

Lemma complete_twice_repeats_witness :
  let w1 := default suspended (complete Service.def 2 svcNode JNull (Service.x 2) suspended) in
  let w2 := default suspended (complete Service.def 2 svcNode JNull (Service.x 2) w1) in
  (truthy JNull = false →
     ∃ tl, World.events w2 = World.events w1 ++ After Service.svc :: tl) ∧
  (truthy JNull = true → failure_outcome Service.def JNull w1 w2) ∧
  (World.events w2, World.pending w2) ≠ (World.events w1, World.pending w1).
Proof.
  intros w1 w2.
  apply (complete_twice_repeats Service.def 2 svcNode JNull (Service.x 2) suspended w1 w2).
  - vm_compute. reflexivity.
  - vm_compute. reflexivity.
Defined.

(** * Completion and the node pool *)

(** C6, as stated, fails: started on a definition where the start task
    feeds both the end task and a join that still waits for another
    arrival, the instance is COMPLETED while the join is in [nodePool]. *)
Lemma completed_with_live_node :
  ∃ w, turns Split.def 2 3 (_start Split.def JUndefined (init Split.def)) = Some w ∧
    Instance.status (World.inst w) = COMPLETED ∧
    Instance.nodePool (World.inst w) !! 1 = Some (Node.mk Split.join 1 Base) ∧
    Instance.nodePool (World.inst w) ≠ ∅.
Proof.
  eexists. split; [vm_compute; reflexivity|].
  split; [reflexivity|]. split; [vm_compute; reflexivity|].
  intros H. apply (f_equal (fun p => p !! 1)) in H. vm_compute in H. discriminate.
Qed.

(** C6, as the code has it: the transition to COMPLETED neither clears nor
    checks the pool.  When an end task without outgoing flows completes
    without error, the status becomes COMPLETED and [nodePool] is the pool
    of before without the end task's own node; so the pool of the
    COMPLETED instance is empty exactly when no other node was live. *)
Theorem completed_pool def fuel self err variables w :
  truthy err = false →
  Task.type (Node.task self) = "end-task" →
  Task.outgoingFlows (Node.task self) = [] →
  ∃ w', complete def fuel self err variables w = Some w' ∧
    Instance.status (World.inst w') = COMPLETED ∧
    Instance.nodePool (World.inst w') =
      delete (Task.id (Node.task self)) (Instance.nodePool (World.inst w)) ∧
    (Instance.nodePool (World.inst w') = ∅ ↔
     ∀ k, k ≠ Task.id (Node.task self) → Instance.nodePool (World.inst w) !! k = None).
Proof.
  intros Herr Htype Hout. unfold complete, complete_with.
  rewrite Herr, Hout. apply String.eqb_eq in Htype. rewrite Htype.
  exists (changeStatus def COMPLETED JUndefined CbEmitEnd (leave self variables w)).
  split; [done|]. rewrite changeStatus_inst.
  cbn [setStatus Instance.status Instance.nodePool].
  rewrite leave_nodePool. split; [done|]. split; [done|].
  rewrite map_empty. split.
  - intros H k Hk. specialize (H k). by rewrite lookup_delete_ne in H.
  - intros H k. destruct (decide (k = Task.id (Node.task self))) as [->|Hk].
    + apply lookup_delete_eq.
    + rewrite lookup_delete_ne by done. by apply H.
Qed.

Lemma completed_pool_witness :
  ∃ w', complete Linear.def 0 (Node.mk Linear.end_ 1 Base) JUndefined JUndefined
          (init Linear.def) = Some w' ∧
    Instance.status (World.inst w') = COMPLETED ∧
    Instance.nodePool (World.inst w') =
      delete 2 (Instance.nodePool (World.inst (init Linear.def))) ∧
    (Instance.nodePool (World.inst w') = ∅ ↔
     ∀ k, k ≠ 2 → Instance.nodePool (World.inst (init Linear.def)) !! k = None).
Proof.
  apply (completed_pool Linear.def 0 (Node.mk Linear.end_ 1 Base) JUndefined JUndefined
           (init Linear.def)); reflexivity.
Defined.

(** * Clearing the engine's pool *)

Lemma clearPool_fold ks : NoDup ks →
  ∀ p : gmap nat Instance.t, (∀ k, k ∈ ks → is_Some (p !! k)) →
  foldl clearPool_step (Some p) ks =
    Some (filter (fun kv => ¬ (kv.1 ∈ ks ∧ evicted kv.2)) p).
Proof.
  induction 1 as [|k ks Hk Hnd IH]; intros p Hp; simpl.
  - f_equal. symmetry. apply map_filter_id. intros i x _ [Hin _].
    by apply elem_of_nil in Hin.
  - destruct (Hp k) as [i Hi]; [by constructor|]. rewrite Hi. simpl.
    assert (Hrest : ∀ q : gmap nat Instance.t,
      (∀ j, j ≠ k → q !! j = p !! j) → ∀ j, j ∈ ks → is_Some (q !! j)).
    { intros q Hq j Hj. rewrite Hq; [apply Hp; by constructor|]. intros ->. done. }
    assert (Hev : evicted i →
      foldl clearPool_step (Some (delete k p)) ks =
      Some (filter (fun kv => ¬ (kv.1 ∈ k :: ks ∧ evicted kv.2)) p)).
    { intros Hevi. rewrite IH by (apply Hrest; intros; by apply lookup_delete_ne).
      f_equal. apply map_eq. intros j. apply option_eq. intros x.
      rewrite !map_lookup_filter_Some, lookup_delete_Some. simpl.
      split.
      - intros [[Hjk Hj] Hn]. split; [done|].
        intros [[->|Hin]%elem_of_cons He]; [done|by apply Hn].
      - intros [Hj Hn]. destruct (decide (k = j)) as [->|Hjk].
        + rewrite Hi in Hj. injection Hj as <-. exfalso. apply Hn.
          split; [by constructor|done].
        + repeat split; [done..|]. intros [Hin He]. apply Hn.
          split; [by constructor|done]. }
    destruct (decide (Instance.status i = WAITING)) as [Hw|Hw];
      [apply Hev; by left|].
    destruct (decide (Instance.status i = COMPLETED)) as [Hc|Hc];
      [apply Hev; by right|].
    rewrite IH by (by apply Hrest).
    f_equal. apply map_filter_ext. intros j x Hj. simpl.
    split; [|intros Hn [Hin He]; apply Hn; split; [by constructor|done]].
    intros Hn [Hin He]. apply elem_of_cons in Hin as [->|Hin]; [|by apply Hn].
    rewrite Hi in Hj. injection Hj as <-. destruct He; done.
Qed.

(** C9: [clearPool] removes from the engine's live pool exactly the
    instances whose status is WAITING or COMPLETED; every other instance,
    those RUNNING or FAILED among them, stays as it is. *)
Theorem clearPool_evicts (engine : Engine.t) :
  ∃ engine', clearPool engine = Some engine' ∧
    Engine.nextProcessId engine' = Engine.nextProcessId engine ∧
    Engine.processPool engine' =
      filter (fun kv => ¬ evicted kv.2) (Engine.processPool engine) ∧
    ∀ key,
      Engine.processPool engine' !! key =
        (instance ← Engine.processPool engine !! key;
         if decide (Instance.status instance = WAITING ∨
                    Instance.status instance = COMPLETED)
         then None
         else Some instance).
Proof.
  unfold clearPool, forOwn.
  change (map fst ?l) with (l.*1).
  rewrite clearPool_fold.
  - simpl. eexists. split; [done|]. simpl. split; [done|].
    assert (Hf : filter (fun kv : nat * Instance.t =>
                   ¬ (kv.1 ∈ (merge_sort key_le (map_to_list (Engine.processPool engine))).*1
                      ∧ evicted kv.2)) (Engine.processPool engine)
                 = filter (fun kv => ¬ evicted kv.2) (Engine.processPool engine)).
    { apply map_filter_ext. intros i x Hi. simpl. split; [|tauto].
      intros Hn He. apply Hn. split; [|done].
      rewrite merge_sort_Permutation. apply list_elem_of_fmap.
      exists (i, x). split; [done|]. by apply elem_of_map_to_list. }
    rewrite Hf. split; [done|]. intros key.
    rewrite map_lookup_filter.
    destruct (Engine.processPool engine !! key) as [i|]; simpl; [|done].
    unfold evicted. destruct (decide (_ ∨ _)) as [He|He].
    + rewrite option_guard_False by tauto. done.
    + rewrite option_guard_True by done. done.
  - rewrite merge_sort_Permutation. apply NoDup_fst_map_to_list.
  - intros k. rewrite merge_sort_Permutation.
    intros ((k' & x) & -> & Hkx)%list_elem_of_fmap.
    apply elem_of_map_to_list in Hkx. by eexists.
Qed.

(** The eviction scenario: WAITING and COMPLETED leave, RUNNING stays. *)
Example clearPool_scenario :
  let mk st := Instance.mk None None st ∅ (JObj []) JNull in
  let engine := Engine.mk 3 (<[0 := mk WAITING]> (<[1 := mk COMPLETED]> (<[2 := mk RUNNING]> ∅))) in
  Engine.processPool <$> clearPool engine = Some (<[2 := mk RUNNING]> ∅).
Proof. vm_compute. reflexivity. Qed.

(** * Serialization round trip *)

Lemma deserializeNodes_fold def i (l : list (nat * Node.t)) :
  Forall (fun kn => Task.id (Node.task kn.2) = kn.1 ∧
                    Def.tasks def !! kn.1 = Some (Node.task kn.2)) l →
  ∀ acc, deserializeNodes def (map (fun kn => Node_serialize i kn.2) l) acc =
         Some (foldl (fun a kn => <[kn.1 := rebuilt def kn.2]> a) acc l).
Proof.
  induction 1 as [|[k n] l [Hid Htask] _ IH]; intros acc; simpl; [done|].
  simpl in Hid, Htask. unfold Node_deserialize. simpl.
  rewrite Hid, Htask. simpl. rewrite createNode_task, Hid. apply IH.
Qed.

Lemma foldl_insert_list_to_map {A B} (f : A → B) (l : list (nat * A)) :
  NoDup (l.*1) →
  ∀ acc : gmap nat B,
    foldl (fun a kn => <[kn.1 := f kn.2]> a) acc l =
    list_to_map (prod_map id f <$> l) ∪ acc.
Proof.
  induction l as [|[k x] l IH]; intros Hnd acc; simpl.
  - by rewrite (left_id_L ∅ (∪)).
  - apply NoDup_cons in Hnd as [Hk Hnd]. rewrite IH by done.
    rewrite <- insert_union_l. symmetry. apply insert_union_r.
    apply not_elem_of_list_to_map_1.
    rewrite <- list_fmap_compose.
    by replace (fst ∘ prod_map id f) with (@fst nat A) by done.
Qed.

(** What the round trip does in general: status, variables, error, id and
    the membership of the pool come back; every node is rebuilt by
    [createNode], so its counter is 0; the instance has no [_id]. *)
Lemma deserialize_serialize def i :
  pool_indexed def (Instance.nodePool i) →
  deserialize def (serialize def i) =
    Some (Instance.mk None (Instance.id i) (Instance.status i)
            (rebuilt def <$> Instance.nodePool i)
            (Instance.variables i) (Instance.error i)).
Proof.
  intros Hwf. unfold deserialize, serialize. simpl.
  assert (Hperm : forOwn (Instance.nodePool i) ≡ₚ map_to_list (Instance.nodePool i))
    by apply merge_sort_Permutation.
  rewrite deserializeNodes_fold.
  - simpl. do 2 f_equal.
    rewrite foldl_insert_list_to_map
      by (rewrite Hperm; apply NoDup_fst_map_to_list).
    rewrite (right_id_L ∅ (∪)), list_to_map_fmap. f_equal.
    rewrite (list_to_map_proper _ (map_to_list (Instance.nodePool i)));
      [apply list_to_map_to_list | | done].
    rewrite Hperm. apply NoDup_fst_map_to_list.
  - apply Forall_forall. intros [k n] Hkn. simpl.
    rewrite Hperm in Hkn. apply elem_of_map_to_list in Hkn. by apply Hwf.
Qed.

Lemma rebuilt_counter def n : Node.incomingFlowCompletedNumber (rebuilt def n) = 0.
Proof. apply createNode_counter. Qed.

(** C1 (round trip), at the instance of the join example that waits with
    one of two arrivals counted: [deserialize (serialize I)] has the status,
    the variables and the pool membership of I, but every counter is back
    at 0: the serialized [incomingFlowCompletedNumber] is never read. *)
Theorem roundtrip_resets_counters :
  ∃ i', deserialize Join.def (serialize Join.def Join.waiting) = Some i' ∧
    Instance.status i' = Instance.status Join.waiting ∧
    Instance.variables i' = Instance.variables Join.waiting ∧
    dom (Instance.nodePool i') = dom (Instance.nodePool Join.waiting) ∧
    Node.incomingFlowCompletedNumber <$> Instance.nodePool Join.waiting !! 3 = Some 1 ∧
    Node.incomingFlowCompletedNumber <$> Instance.nodePool i' !! 3 = Some 0 ∧
    Node.incomingFlowCompletedNumber <$> Instance.nodePool Join.waiting !! 1 = Some 1 ∧
    Node.incomingFlowCompletedNumber <$> Instance.nodePool i' !! 1 = Some 0.
Proof.
  eexists. split; [vm_compute; reflexivity|].
  repeat split; vm_compute; reflexivity.
Qed.

(** The consequence: completing A on the instance as it was fires the join
    and finishes the process; on the reloaded instance the join counts one
    arrival of two and the process stays WAITING. *)
Example join_fires_before_reload :
  let w := World.mk Join.waiting [] [] [] in
  (fun w' => (World.events w', Instance.status (World.inst w')))
    <$> completeTask Join.def 3 1 JUndefined w =
  Some ([After Join.A; Before Join.join; After Join.join;
         Before Join.end_; After Join.end_], COMPLETED).
Proof. vm_compute. reflexivity. Qed.

Example join_stuck_after_reload :
  let reload i := default i (deserialize Join.def (serialize Join.def i)) in
  let w := World.mk (reload Join.waiting) [] [] [] in
  (fun w' => (World.events w', Instance.status (World.inst w')))
    <$> completeTask Join.def 3 1 JUndefined w =
  Some ([After Join.A], WAITING).
Proof. vm_compute. reflexivity. Qed.

(** * Further properties of the code *)

(** ** Lookup by task name *)

Lemma find_split {A} (f : A → bool) l x :
  List.find f l = Some x →
  ∃ l1 l2, l = l1 ++ x :: l2 ∧ f x = true ∧ Forall (fun y => f y = false) l1.
Proof.
  induction l as [|y l IH]; simpl; [done|].
  destruct (f y) eqn:Ey.
  - intros [= ->]. exists [], l. by repeat split.
  - intros (l1 & l2 & -> & Hx & Hl1)%IH. exists (y :: l1), l2.
    repeat split; [done|]. by constructor.
Qed.

Global Instance key_le_trans {A} : Transitive (@key_le A).
Proof. intros a b c. unfold key_le. lia. Qed.

Global Instance key_le_total {A} : Total (@key_le A).
Proof. intros a b. unfold key_le. lia. Qed.

Lemma elem_of_forOwn {A} (p : gmap nat A) k x :
  (k, x) ∈ forOwn p ↔ p !! k = Some x.
Proof.
  unfold forOwn. rewrite merge_sort_Permutation. apply elem_of_map_to_list.
Qed.

(** [getNode] returns a live node with the given task name, the one under
    the smallest task id if several have the name, and [undefined] exactly
    when no live node has it. *)
Theorem getNode_first_match taskName i :
  match getNode taskName i with
  | Some n =>
      Task.name (Node.task n) = taskName ∧
      ∃ k, Instance.nodePool i !! k = Some n ∧
        ∀ k' n', Instance.nodePool i !! k' = Some n' →
                 Task.name (Node.task n') = taskName → k ≤ k'
  | None =>
      ∀ k n, Instance.nodePool i !! k = Some n → Task.name (Node.task n) ≠ taskName
  end.
Proof.
  unfold getNode.
  destruct (List.find _ _) as [[k n]|] eqn:E; simpl.
  - apply find_split in E as (l1 & l2 & Hl & Hn & Hl1). simpl in Hn.
    apply String.eqb_eq in Hn. split; [done|]. exists k.
    assert (Hin : ∀ k' n', Instance.nodePool i !! k' = Some n' ↔
                           (k', n') ∈ l1 ++ (k, n) :: l2).
    { intros k' n'. by rewrite <- Hl, elem_of_forOwn. }
    split; [apply Hin, elem_of_app; right; constructor|].
    intros k' n' Hk' Hname. apply Hin in Hk'.
    apply elem_of_app in Hk' as [Hk'|Hk'].
    + rewrite Forall_forall in Hl1. specialize (Hl1 _ Hk'). simpl in Hl1.
      apply String.eqb_neq in Hl1. done.
    + pose proof (StronglySorted_merge_sort key_le
                    (map_to_list (Instance.nodePool i))) as Hs.
      fold (forOwn (Instance.nodePool i)) in Hs. rewrite Hl in Hs.
      apply StronglySorted_app_1_r in Hs.
      apply elem_of_cons in Hk' as [[= -> ->]|Hk']; [done|].
      apply StronglySorted_inv in Hs as [_ Hs].
      rewrite Forall_forall in Hs. by apply (Hs (k', n')).
  - intros k n Hk Hname. apply elem_of_forOwn in Hk.
    apply list_elem_of_In in Hk.
    apply (find_none _ _ E) in Hk. simpl in Hk.
    apply String.eqb_neq in Hk. done.
Qed.

(** ** Serialization and the store *)

(** Reloading an instance whose nodes sit under their task's id in a
    definition that has these tasks gives back its id, status, variables,
    error and the membership of the pool; every node is built anew for its
    task by [createNode], with the counter its constructor sets, and the
    instance has no [_id]. *)
Theorem round_trip_preserves def i :
  pool_indexed def (Instance.nodePool i) →
  ∃ i', deserialize def (serialize def i) = Some i' ∧
    Instance.id i' = Instance.id i ∧
    Instance.status i' = Instance.status i ∧
    Instance.variables i' = Instance.variables i ∧
    Instance.error i' = Instance.error i ∧
    Instance._id i' = None ∧
    dom (Instance.nodePool i') = dom (Instance.nodePool i) ∧
    ∀ k n, Instance.nodePool i !! k = Some n →
      Instance.nodePool i' !! k = Some (createNode def (Node.task n)) ∧
      Node.task (createNode def (Node.task n)) = Node.task n ∧
      Node.incomingFlowCompletedNumber (createNode def (Node.task n)) = 0.
Proof.
  intros Hwf. rewrite deserialize_serialize by done.
  eexists. split; [done|]. simpl. repeat split; try done.
  - apply dom_fmap_L.
  - rewrite lookup_fmap, H. done.
  - apply createNode_task.
  - apply createNode_counter.
Qed.

Lemma round_trip_preserves_witness :
  ∃ i', deserialize Join.def (serialize Join.def Join.waiting) = Some i' ∧
    Instance.id i' = Instance.id Join.waiting ∧
    Instance.status i' = Instance.status Join.waiting ∧
    Instance.variables i' = Instance.variables Join.waiting ∧
    Instance.error i' = Instance.error Join.waiting ∧
    Instance._id i' = None ∧
    dom (Instance.nodePool i') = dom (Instance.nodePool Join.waiting) ∧
    ∀ k n, Instance.nodePool Join.waiting !! k = Some n →
      Instance.nodePool i' !! k = Some (createNode Join.def (Node.task n)) ∧
      Node.task (createNode Join.def (Node.task n)) = Node.task n ∧
      Node.incomingFlowCompletedNumber (createNode Join.def (Node.task n)) = 0.
Proof.
  apply (round_trip_preserves Join.def Join.waiting).
  unfold pool_indexed, Join.waiting. simpl.
  apply map_Forall_insert_2; [by split|].
  apply map_Forall_insert_2; [by split|].
  apply map_Forall_empty.
Defined.

Lemma deserializeNodes_dangling def es :
  Exists (fun e => length (Def.tasks def) ≤ NodeEntity.task e) es →
  ∀ acc, deserializeNodes def es acc = None.
Proof.
  induction 1 as [e es He|e es _ IH]; intros acc; simpl.
  - unfold Node_deserialize. by rewrite (lookup_ge_None_2 _ _ He).
  - destruct (Node_deserialize def e); simpl; [apply IH|done].
Qed.

(** A document that names a task the definition does not have cannot be
    loaded: [deserialize] fails on it, whatever else the document holds. *)
Theorem deserialize_unknown_task_fails def entity e :
  e ∈ Entity.nodePool entity →
  length (Def.tasks def) ≤ NodeEntity.task e →
  deserialize def entity = None.
Proof.
  intros Hin Hlen. unfold deserialize.
  rewrite deserializeNodes_dangling; [done|].
  apply Exists_exists. eauto.
Qed.

Lemma deserialize_unknown_task_fails_witness :
  deserialize Linear.def
    (Entity.mk (Some 0) (Some 0) (Some 7) WAITING [NodeEntity.mk (Some 0) 1 3]
       (JObj []) JUndefined) = None.
Proof.
  apply (deserialize_unknown_task_fails Linear.def _ (NodeEntity.mk (Some 0) 1 3)).
  - simpl. constructor.
  - simpl. lia.
Defined.

Lemma replaceDoc_last oid entity docs d :
  Forall (fun d' => Entity._id d' ≠ Some oid) docs →
  Entity._id d = Some oid →
  replaceDoc oid entity (docs ++ [d]) = docs ++ [entity].
Proof.
  intros Hdocs Hd. unfold replaceDoc. rewrite map_app. simpl.
  rewrite decide_True by done. f_equal.
  induction Hdocs as [|d' docs Hd' _ IH]; simpl; [done|].
  by rewrite decide_False, IH.
Qed.

(** The first [save] of an instance inserts a document; once the store
    has acknowledged it, the instance carries the document's [_id] and
    every later [save] replaces that document by the current state: the
    collection does not grow again. *)
Theorem save_updates_in_place def fuel cb w w1 change :
  Instance._id (World.inst w) = None →
  World.pending w = [] →
  Forall (fun d => Entity._id d ≠ Some (length (World.collection w))) (World.collection w) →
  turn def fuel (save def CbNone w) = Some w1 →
  Instance._id (change (World.inst w1)) = Instance._id (World.inst w1) →
  length (World.collection w1) = S (length (World.collection w)) ∧
  Instance._id (World.inst w1) = Some (length (World.collection w)) ∧
  World.collection (save def cb (with_inst change w1)) =
    World.collection w ++ [serialize def (change (World.inst w1))].
Proof.
  intros Hid Hp Hfresh Hturn Hchange.
  unfold save in Hturn. simpl in Hturn. rewrite Hid, Hp in Hturn.
  unfold turn in Hturn. simpl in Hturn. injection Hturn as <-. simpl.
  split; [by rewrite length_app; simpl; lia|]. split; [done|].
  unfold save. simpl in *. rewrite Hchange. simpl.
  apply replaceDoc_last; done.
Qed.

Lemma save_updates_in_place_witness :
  let w := init Linear.def in
  let w1 := default w (turn Linear.def 0 (save Linear.def CbNone w)) in
  length (World.collection w1) = S (length (World.collection w)) ∧
  Instance._id (World.inst w1) = Some (length (World.collection w)) ∧
  World.collection (save Linear.def CbEmitEnd
                      (with_inst (setStatus COMPLETED JUndefined) w1)) =
    World.collection w ++ [serialize Linear.def (setStatus COMPLETED JUndefined (World.inst w1))].
Proof.
  intros w w1.
  apply (save_updates_in_place Linear.def 0 CbEmitEnd w w1 (setStatus COMPLETED JUndefined)).
  - reflexivity.
  - reflexivity.
  - constructor.
  - reflexivity.
  - reflexivity.
Defined.

(** [deserialize] never restores [_id]; so the first [save] of a reloaded
    instance inserts one more document instead of replacing the one it was
    loaded from. *)
Theorem reloaded_instance_saves_new_document def entity i cb w :
  deserialize def entity = Some i →
  World.inst w = i →
  Instance._id i = None ∧
  World.collection (save def cb w) =
    World.collection w ++ [withId (length (World.collection w)) (serialize def i)].
Proof.
  intros Hd Hw. unfold deserialize in Hd.
  destruct (deserializeNodes _ _ _); simpl in Hd; [|done].
  injection Hd as <-. split; [done|].
  unfold save. simpl. rewrite Hw. done.
Qed.

Lemma reloaded_instance_saves_new_document_witness :
  let entity := serialize Service.def (World.inst suspended) in
  let i := default (World.inst suspended) (deserialize Service.def entity) in
  let w := World.mk i [] (World.collection suspended) [] in
  Instance._id i = None ∧
  World.collection (save Service.def CbNone w) =
    World.collection w ++ [withId (length (World.collection w)) (serialize Service.def i)].
Proof.
  intros entity i w.
  apply (reloaded_instance_saves_new_document Service.def entity i CbNone w).
  - vm_compute. reflexivity.
  - reflexivity.
Defined.

(** ** The variables of the instance *)

Lemma leave_variables self variables w :
  Instance.variables (World.inst (leave self variables w)) =
  if truthy variables then variables else Instance.variables (World.inst w).
Proof.
  unfold leave. simpl. destruct (truthy variables); simpl; [|done].
  apply cloneDeep_id.
Qed.

Lemma leave_status self variables w :
  Instance.status (World.inst (leave self variables w)) = Instance.status (World.inst w).
Proof. unfold leave. simpl. by destruct (truthy variables). Qed.

Lemma leave_error self variables w :
  Instance.error (World.inst (leave self variables w)) = Instance.error (World.inst w).
Proof. unfold leave. simpl. by destruct (truthy variables). Qed.

Lemma leave_pending self variables w :
  World.pending (leave self variables w) = World.pending w.
Proof. unfold leave. simpl. by destruct (truthy variables). Qed.

Local Instance same_variables_preorder : PreOrder same_variables.
Proof.
  split; [by intros w|]. intros w1 w2 w3 H1 H2.
  unfold same_variables in *. congruence.
Qed.

Lemma execute_variables def fuel n w w' :
  execute def fuel n w = Some w' → same_variables w w'.
Proof.
  apply (execute_rel def same_variables); intros; unfold same_variables;
    rewrite ?save_inst, ?changeStatus_inst, ?leave_variables; done.
Qed.

(** [complete] itself replaces the instance's variables, by the ones
    handed over, exactly when [err] is falsy and [variables] is truthy;
    none of its other steps (leaving the pool, creating and counting
    successors, saving, changing the status) touches them.  So whenever
    the successors it executes leave the variables alone, as the base and
    the service node do, the variables after it returns are the ones
    handed over, and without any handed over, or on the error path, the
    ones the instance had. *)
Theorem complete_sets_variables def exec self err variables w w' :
  (∀ n v v', exec n v = Some v' → same_variables v v') →
  complete_with def exec self err variables w = Some w' →
  Instance.variables (World.inst w') =
    if truthy err then Instance.variables (World.inst w)
    else if truthy variables then variables
    else Instance.variables (World.inst w).
Proof.
  intros Hexec H. destruct (truthy err) eqn:Herr.
  - unfold complete_with in H. rewrite Herr in H. injection H as <-.
    by rewrite changeStatus_inst.
  - apply (complete_with_rel def same_variables) in H; try done;
      try (intros; unfold same_variables;
           rewrite ?save_inst, ?changeStatus_inst; done).
    unfold same_variables in H. by rewrite H, leave_variables.
Qed.

Lemma complete_sets_variables_witness :
  let w' := default suspended (complete Service.def 2 svcNode JNull (Service.x 2) suspended) in
  Instance.variables (World.inst w') =
    if truthy JNull then Instance.variables (World.inst suspended)
    else if truthy (Service.x 2) then Service.x 2
    else Instance.variables (World.inst suspended).
Proof.
  intros w'.
  apply (complete_sets_variables Service.def (execute Service.def 2) svcNode JNull
           (Service.x 2) suspended w').
  - intros n v v'. apply execute_variables.
  - vm_compute. reflexivity.
Defined.

(** ** Invariants of a running instance *)

Local Instance keeps_preorder P : PreOrder (keeps P).
Proof.
  split; [intros w H; exact H|].
  intros w1 w2 w3 H1 H2 H. apply H2, H1, H.
Qed.

Lemma acknowledge_inst d w :
  Instance.status (World.inst (acknowledge d w)) = Instance.status (World.inst w) ∧
  Instance.error (World.inst (acknowledge d w)) = Instance.error (World.inst w) ∧
  Instance.nodePool (World.inst (acknowledge d w)) = Instance.nodePool (World.inst w) ∧
  Instance.variables (World.inst (acknowledge d w)) = Instance.variables (World.inst w) ∧
  World.events (acknowledge d w) = World.events w.
Proof. unfold acknowledge. by destruct (Deferred.inserted d). Qed.

Ltac failed_effects :=
  intros; unfold keeps, failed_with_error;
  rewrite ?save_inst, ?changeStatus_inst, ?leave_status, ?leave_error; simpl; done.

Lemma execute_failed_with_error def fuel n w w' :
  execute def fuel n w = Some w' → keeps failed_with_error w w'.
Proof. apply (execute_rel def (keeps failed_with_error)); failed_effects. Qed.

Lemma step_failed_with_error def w w' :
  step def w w' → failed_with_error w → failed_with_error w'.
Proof.
  intros [variables v|fuel v v' Ht|fuel node err variables v v' Hc] Hw.
  - unfold failed_with_error, _start. by rewrite changeStatus_inst.
  - unfold turn in Ht. destruct (World.pending v) as [|d rest]; [by injection Ht as <-|].
    set (v1 := acknowledge d _) in Ht.
    assert (Hv1 : failed_with_error v1).
    { unfold failed_with_error. subst v1.
      by destruct (acknowledge_inst d (World.mk (World.inst v) (World.events v)
                     (World.collection v) rest)) as (-> & -> & _). }
    destruct (Deferred.callback d); simpl in Ht.
    + by injection Ht as <-.
    + by injection Ht as <-.
    + destruct (Def.tasks def !! 0); simpl in Ht; [|done].
      by apply (execute_failed_with_error _ _ _ _ _ Ht).
  - destruct (truthy err) eqn:Herr.
    + rewrite complete_error_outcome in Hc by done. injection Hc as <-.
      unfold failed_with_error. by rewrite changeStatus_inst.
    + apply (complete_rel def (keeps failed_with_error)) in Hc;
        [|failed_effects..|done].
      apply Hc. unfold failed_with_error. by rewrite leave_status, leave_error.
Qed.

(** In every state an instance can reach from its creation, by starting
    it, by turns of the event loop and by completions with or without an
    error, a FAILED status comes with a truthy error. *)
Theorem failed_has_error def w :
  reachable def w → failed_with_error w.
Proof.
  intros (i & _ & Hnew & Hrtc). revert w Hrtc. apply rtc_ind_r.
  - unfold failed_with_error. simpl. by rewrite Hnew.
  - intros w1 w2 _ Hstep IH. by eapply step_failed_with_error.
Qed.

Lemma failed_has_error_witness :
  failed_with_error
    (default suspended (complete Service.def 2 svcNode (JStr "timeout") JUndefined suspended)).
Proof.
  apply (failed_has_error Service.def).
  exists (World.inst (init Service.def)). split; [reflexivity|]. split; [reflexivity|].
  eapply rtc_l; [apply (step_start _ (Service.x 1))|].
  eapply rtc_l; [apply (step_turn _ 3); vm_compute; reflexivity|].
  eapply rtc_l; [apply (step_turn _ 3); vm_compute; reflexivity|].
  eapply rtc_l; [|apply rtc_refl].
  apply (step_complete _ 2 svcNode (JStr "timeout") JUndefined).
  vm_compute. reflexivity.
Defined.

Ltac counted_effects :=
  intros; unfold keeps, arrivals_counted;
  rewrite ?save_inst, ?changeStatus_inst, ?leave_nodePool; simpl;
  try done; try (by apply map_Forall_delete).

Lemma arrive_counted def to w : keeps arrivals_counted w (arrive def to w).
Proof.
  unfold keeps, arrivals_counted, arrive. simpl. intros Hw.
  apply map_Forall_insert_2; [simpl; lia|done].
Qed.

Lemma execute_counted def fuel n w w' :
  execute def fuel n w = Some w' → keeps arrivals_counted w w'.
Proof.
  apply (execute_rel def (keeps arrivals_counted));
    [counted_effects|counted_effects|apply arrive_counted|counted_effects..].
Qed.

Lemma step_counted def w w' :
  step def w w' → arrivals_counted w → arrivals_counted w'.
Proof.
  intros [variables v|fuel v v' Ht|fuel node err variables v v' Hc] Hw.
  - unfold arrivals_counted, _start. by rewrite changeStatus_inst.
  - unfold turn in Ht. destruct (World.pending v) as [|d rest]; [by injection Ht as <-|].
    set (v1 := acknowledge d _) in Ht.
    assert (Hv1 : arrivals_counted v1).
    { unfold arrivals_counted. subst v1.
      by destruct (acknowledge_inst d (World.mk (World.inst v) (World.events v)
                     (World.collection v) rest)) as (_ & _ & -> & _). }
    destruct (Deferred.callback d); simpl in Ht.
    + by injection Ht as <-.
    + by injection Ht as <-.
    + destruct (Def.tasks def !! 0); simpl in Ht; [|done].
      by apply (execute_counted _ _ _ _ _ Ht).
  - destruct (truthy err) eqn:Herr.
    + rewrite complete_error_outcome in Hc by done. injection Hc as <-.
      unfold arrivals_counted. by rewrite changeStatus_inst.
    + apply (complete_rel def (keeps arrivals_counted)) in Hc;
        [|counted_effects|counted_effects|apply arrive_counted|counted_effects..|done].
      apply Hc. unfold arrivals_counted. rewrite leave_nodePool.
      by apply map_Forall_delete.
Qed.

(** In every state an instance can reach from its creation, each node in
    [nodePool] has counted at least one arrival: a node enters the pool
    only together with its first increment. *)
Theorem live_nodes_have_arrivals def w k n :
  reachable def w →
  Instance.nodePool (World.inst w) !! k = Some n →
  1 ≤ Node.incomingFlowCompletedNumber n.
Proof.
  intros (i & Hempty & _ & Hrtc) Hk.
  assert (H : arrivals_counted w); [|by apply (H k n)].
  clear Hk. revert w Hrtc. apply rtc_ind_r.
  - unfold arrivals_counted. simpl. rewrite Hempty. apply map_Forall_empty.
  - intros w1 w2 _ Hstep IH. by eapply step_counted.
Qed.

Lemma live_nodes_have_arrivals_witness :
  1 ≤ Node.incomingFlowCompletedNumber svcNode.
Proof.
  apply (live_nodes_have_arrivals Service.def suspended 1 svcNode).
  - exists (World.inst (init Service.def)). split; [reflexivity|]. split; [reflexivity|].
    eapply rtc_l; [apply (step_start _ (Service.x 1))|].
    eapply rtc_l; [apply (step_turn _ 3); vm_compute; reflexivity|].
    eapply rtc_l; [apply (step_turn _ 3); vm_compute; reflexivity|].
    apply rtc_refl.
  - vm_compute. reflexivity.
Defined.

(** ** What a completion never does *)

Local Instance quiet_preorder : PreOrder quiet.
Proof.
  split.
  - intros w. exists [], []. rewrite !app_nil_r. split; [done|]. split; [|done].
    apply not_elem_of_nil.
  - intros w1 w2 w3 (t1 & l1 & E1 & N1 & P1) (t2 & l2 & E2 & N2 & P2).
    exists (t1 ++ t2), (l1 ++ l2). rewrite E2, E1, P2, P1, !app_assoc.
    split; [done|]. split; [|done].
    rewrite elem_of_app. tauto.
Qed.

Lemma quiet_emit e w : e ≠ End_ → quiet w (emit e w).
Proof.
  intros He. exists [e], []. simpl. rewrite app_nil_r.
  split; [done|]. split; [|done].
  rewrite list_elem_of_singleton. congruence.
Qed.

Lemma quiet_save def cb w : quiet w (save def cb w).
Proof.
  destruct (save_pending def cb w) as (d & Hd & _).
  exists [], [d]. rewrite save_events, app_nil_r.
  split; [done|]. split; [apply not_elem_of_nil|done].
Qed.

Lemma quiet_changeStatus def st err cb w : quiet w (changeStatus def st err cb w).
Proof.
  destruct (save_pending def cb (with_inst (setStatus st err) w)) as (d & Hd & _).
  exists [], [d]. rewrite changeStatus_events, app_nil_r.
  split; [done|]. split; [apply not_elem_of_nil|exact Hd].
Qed.

Lemma quiet_leave self variables w : quiet w (leave self variables w).
Proof.
  exists [After (Node.task self)], []. rewrite leave_events, leave_pending, app_nil_r.
  split; [done|]. split; [|done].
  rewrite list_elem_of_singleton. congruence.
Qed.

Lemma quiet_refl_same w w' :
  World.events w' = World.events w → World.pending w' = World.pending w → quiet w w'.
Proof.
  intros He Hp. exists [], []. rewrite !app_nil_r.
  split; [done|]. split; [apply not_elem_of_nil|done].
Qed.

(** A completion emits no ['end'] itself and consumes no acknowledgement,
    on the success path and on the error path alike: it only adds events
    other than ['end'] and queues acknowledgements; ['end'] is left to the
    event loop. *)
Theorem complete_never_emits_end def fuel self err variables w w' :
  complete def fuel self err variables w = Some w' →
  ∃ tl l, World.events w' = World.events w ++ tl ∧ (End_ ∉ tl) ∧
          World.pending w' = World.pending w ++ l.
Proof.
  intros Hc. change (quiet w w'). destruct (truthy err) eqn:Herr.
  - rewrite complete_error_outcome in Hc by done. injection Hc as <-.
    apply quiet_changeStatus.
  - apply (complete_rel def quiet) in Hc; try done.
    + etrans; [apply quiet_leave|exact Hc].
    + intros. by apply quiet_emit.
    + intros. apply quiet_leave.
    + intros. by apply quiet_refl_same.
    + intros. apply quiet_save.
    + intros. apply quiet_changeStatus.
    + intros. apply quiet_changeStatus.
Qed.

Lemma complete_never_emits_end_witness :
  let w' := default suspended (complete Service.def 2 svcNode JNull (Service.x 2) suspended) in
  ∃ tl l, World.events w' = World.events suspended ++ tl ∧ (End_ ∉ tl) ∧
          World.pending w' = World.pending suspended ++ l.
Proof.
  intros w'.
  apply (complete_never_emits_end Service.def 2 svcNode JNull (Service.x 2) suspended w').
  vm_compute. reflexivity.
Defined.

Local Instance not_resumed_preorder : PreOrder not_resumed.
Proof.
  split; [by left|].
  intros w1 w2 w3 H1 H2. unfold not_resumed in *.
  destruct H2 as [->|H2]; [done|by right].
Qed.

Ltac not_resumed_effects :=
  intros; unfold not_resumed;
  rewrite ?save_inst, ?changeStatus_inst, ?leave_status; simpl;
  first [by left|by right].

Lemma execute_not_resumed def fuel n w w' :
  execute def fuel n w = Some w' → not_resumed w w'.
Proof. apply (execute_rel def not_resumed); not_resumed_effects. Qed.

(** [complete] never sets the status to RUNNING or NEW itself, on the
    success path or on the error path: unless a successor it executes
    does so (the base and the service node do not), the status after it
    returns is what it was before, or is neither RUNNING nor NEW.  In particular
    completing the task of a WAITING instance does not make the instance
    RUNNING again. *)
Theorem complete_never_resumes def exec self err variables w w' :
  (∀ n v v', exec n v = Some v' → not_resumed v v') →
  complete_with def exec self err variables w = Some w' →
  Instance.status (World.inst w') = Instance.status (World.inst w) ∨
  (Instance.status (World.inst w') ≠ RUNNING ∧
   Instance.status (World.inst w') ≠ NEW).
Proof.
  intros Hexec Hc. change (not_resumed w w'). destruct (truthy err) eqn:Herr.
  - unfold complete_with in Hc. rewrite Herr in Hc. injection Hc as <-.
    not_resumed_effects.
  - apply (complete_with_rel def not_resumed) in Hc; try done;
      try not_resumed_effects.
    unfold not_resumed in *. by rewrite leave_status in Hc.
Qed.

Lemma complete_never_resumes_witness :
  let w' := default suspended (complete Service.def 2 svcNode JNull (Service.x 2) suspended) in
  Instance.status (World.inst w') = Instance.status (World.inst suspended) ∨
  (Instance.status (World.inst w') ≠ RUNNING ∧
   Instance.status (World.inst w') ≠ NEW).
Proof.
  intros w'.
  apply (complete_never_resumes Service.def (execute Service.def 2) svcNode JNull
           (Service.x 2) suspended w').
  - intros n v v'. apply execute_not_resumed.
  - vm_compute. reflexivity.
Defined.

(** ** Completion on definitions without cycles *)

Section Frame.
Variable def : Def.t.
Variable rank : nat → nat.
Hypothesis def_acyclic : acyclic def rank = true.

Lemma flows_frame exec self :
  (∀ n v v', flows_ok def rank (Node.task n) = true → pool_ok def rank v →
             exec n v = Some v' →
             pool_ok def rank v' ∧ above rank (rank (Task.id (Node.task n))) v v') →
  flows_ok def rank (Node.task self) = true →
  ∀ flows, (∀ f, In f flows → In f (Task.outgoingFlows (Node.task self))) →
  ∀ w w', pool_ok def rank w →
    forEachM (followFlow def exec self) flows w = Some w' →
    pool_ok def rank w' ∧
    ∀ k, rank (Task.id (Node.task self)) ≤ rank k →
      Instance.nodePool (World.inst w') !! k = Instance.nodePool (World.inst w) !! k.
Proof.
  intros Hexec Hself. induction flows as [|flow flows IH]; intros Hsub w w' Hw H; simpl in H.
  - by injection H as <-.
  - destruct (followFlow def exec self w flow) as [w1|] eqn:E; simpl in H; [|done].
    assert (H1 : pool_ok def rank w1 ∧
      ∀ k, rank (Task.id (Node.task self)) ≤ rank k →
        Instance.nodePool (World.inst w1) !! k = Instance.nodePool (World.inst w) !! k).
    { unfold followFlow in E. destruct (negb _); [by injection E as <-|].
      destruct (flows_ok_elim _ _ _ flow Hself) as (to & Hto & Hlt);
        [apply Hsub; by left|].
      rewrite Hto in E. simpl in E.
      assert (Hok : flows_ok def rank to = true) by (by eapply acyclic_elim).
      destruct (successor_ok def rank to w Hok Hw) as [Hid Hfl].
      pose proof (arrive_ok def rank to w Hok Hw) as Hw'.
      assert (Harr : ∀ k, rank (Task.id (Node.task self)) ≤ rank k →
        Instance.nodePool (World.inst (arrive def to w)) !! k =
        Instance.nodePool (World.inst w) !! k).
      { intros k Hk. unfold arrive. simpl. apply lookup_insert_ne.
        intros Heq. rewrite <- Heq in Hk. lia. }
      destruct (canExecuteNode _).
      - apply Hexec in E as [Hp Ha]; [|done..]. split; [done|].
        intros k Hk. rewrite Ha; [by apply Harr|].
        cbn [incr Node.task]. rewrite Hid. lia.
      - destruct (decide _); injection E as <-; rewrite ?save_inst; split; try done.
        eapply pool_ok_same; [|exact Hw']. by rewrite save_inst. }
    destruct H1 as [Hw1 Hf1].
    destruct (IH (fun f Hf => Hsub f (or_intror Hf)) w1 w' Hw1 H) as [Hw' Hf'].
    split; [done|]. intros k Hk. by rewrite Hf', Hf1.
Qed.

Lemma complete_with_frame exec self err variables w w' :
  (∀ n v v', flows_ok def rank (Node.task n) = true → pool_ok def rank v →
             exec n v = Some v' →
             pool_ok def rank v' ∧ above rank (rank (Task.id (Node.task n))) v v') →
  flows_ok def rank (Node.task self) = true →
  pool_ok def rank w →
  truthy err = false →
  complete_with def exec self err variables w = Some w' →
  pool_ok def rank w' ∧
  ∀ k, rank (Task.id (Node.task self)) ≤ rank k →
    Instance.nodePool (World.inst w') !! k =
    delete (Task.id (Node.task self)) (Instance.nodePool (World.inst w)) !! k.
Proof.
  intros Hexec Hself Hw Herr. unfold complete_with. rewrite Herr.
  destruct (forEachM _ _ _) as [w4|] eqn:E; simpl; [|done].
  apply (flows_frame exec self Hexec Hself) in E as [Hw4 Hf]; [|done|].
  - rewrite <- leave_nodePool with (variables := variables).
    destruct (String.eqb _ _); intros [= <-]; [|done].
    rewrite changeStatus_inst. split; [|done].
    eapply pool_ok_same; [|exact Hw4]. by rewrite changeStatus_inst.
  - unfold pool_ok. rewrite leave_nodePool. by apply map_Forall_delete.
Qed.

Lemma execute_frame fuel : ∀ n w w',
  flows_ok def rank (Node.task n) = true → pool_ok def rank w →
  execute def fuel n w = Some w' →
  pool_ok def rank w' ∧ above rank (rank (Task.id (Node.task n))) w w'.
Proof.
  induction fuel as [|fuel IH]; intros n w w' Hn Hw H; simpl in H; [done|].
  unfold executeInternal in H.
  assert (Hc : complete_with def (execute def fuel) n JUndefined JUndefined
                 (emit (Before (Node.task n)) w) = Some w' →
               pool_ok def rank w' ∧ above rank (rank (Task.id (Node.task n))) w w').
  { intros Hc. apply complete_with_frame in Hc as [Hp Hf]; [|done..].
    split; [done|]. intros k Hk. rewrite Hf by lia. simpl.
    apply lookup_delete_ne. intros Heq. rewrite <- Heq in Hk. lia. }
  destruct (Node.kind n); [by apply Hc| |by apply Hc].
  injection H as <-. split.
  - eapply pool_ok_same; [|exact Hw]. by rewrite changeStatus_inst.
  - intros k _. by rewrite changeStatus_inst.
Qed.

Lemma completed_node_frame fuel self err variables w w' :
  flows_ok def rank (Node.task self) = true →
  pool_ok def rank w →
  truthy err = false →
  complete def fuel self err variables w = Some w' →
  Instance.nodePool (World.inst w') !! Task.id (Node.task self) = None ∧
  (∀ k, rank (Task.id (Node.task self)) ≤ rank k → k ≠ Task.id (Node.task self) →
     Instance.nodePool (World.inst w') !! k = Instance.nodePool (World.inst w) !! k) ∧
  pool_ok def rank w'.
Proof.
  intros Hself Hw Herr Hc.
  apply complete_with_frame in Hc as [Hp Hf]; try done.
  - split; [|split; [|done]].
    + rewrite Hf by lia. apply lookup_delete_eq.
    + intros k Hk Hne. rewrite Hf by done. by apply lookup_delete_ne.
  - intros n v v'. apply execute_frame.
Qed.

(** On a definition without cycles, when the completion of a node returns
    the node is gone from [nodePool] (nothing downstream re-creates it),
    the nodes of all tasks that are not downstream of it are as they were,
    and the pool is still keyed by task id. *)
Theorem completed_node_is_gone fuel self err variables w w' :
  flows_ok def rank (Node.task self) = true →
  pool_ok def rank w →
  truthy err = false →
  complete def fuel self err variables w = Some w' →
  Instance.nodePool (World.inst w') !! Task.id (Node.task self) = None ∧
  (∀ k, rank (Task.id (Node.task self)) ≤ rank k → k ≠ Task.id (Node.task self) →
     Instance.nodePool (World.inst w') !! k = Instance.nodePool (World.inst w) !! k) ∧
  pool_ok def rank w'.
Proof. apply completed_node_frame. Qed.
End Frame.

Lemma completed_node_is_gone_witness :
  let w' := default suspended (complete Service.def 2 svcNode JNull (Service.x 2) suspended) in
  Instance.nodePool (World.inst w') !! 1 = None ∧
  (∀ k, Service.rank 1 ≤ Service.rank k → k ≠ 1 →
     Instance.nodePool (World.inst w') !! k = Instance.nodePool (World.inst suspended) !! k) ∧
  pool_ok Service.def Service.rank w'.
Proof.
  intros w'.
  apply (completed_node_is_gone Service.def Service.rank eq_refl 2 svcNode JNull
           (Service.x 2) suspended w').
  - reflexivity.
  - unfold pool_ok, suspended. simpl.
    apply map_Forall_insert_2; [by split|apply map_Forall_empty].
  - reflexivity.
  - vm_compute. reflexivity.
Defined.

(** ** Starting an instance *)

Lemma start_turn def fuel variables w :
  World.pending w = [] →
  ∃ v, turn def fuel (_start def variables w) = runCallback def fuel CbStartNode v ∧
    World.events v = World.events w ∧
    World.pending v = [] ∧
    Instance.nodePool (World.inst v) = Instance.nodePool (World.inst w) ∧
    Instance.status (World.inst v) = RUNNING ∧
    Instance.variables (World.inst v) =
      (if truthy variables then variables else Def.variables def).
Proof.
  intros Hp. unfold _start, changeStatus, save, turn. simpl. rewrite Hp.
  destruct (Instance._id (World.inst w)); simpl; eexists; (split; [done|]); done.
Qed.



(** Starting an instance of a definition without tasks fails when the
    start node is run: there is no task 0 to complete. *)
Theorem start_without_tasks_fails def fuel variables w :
  World.pending w = [] →
  Def.tasks def = [] →
  turn def fuel (_start def variables w) = None.
Proof.
  intros Hp H0.
  destruct (start_turn def fuel variables w Hp) as (v & Hv & _).
  rewrite Hv. simpl. by rewrite H0.
Qed.

Lemma start_without_tasks_fails_witness :
  turn (Def.mk (Some 7) [] (JObj []) registry) 3
    (_start (Def.mk (Some 7) [] (JObj []) registry) JUndefined
       (init (Def.mk (Some 7) [] (JObj []) registry))) = None.
Proof.
  apply (start_without_tasks_fails (Def.mk (Some 7) [] (JObj []) registry) 3 JUndefined);
    reflexivity.
Defined.

(** On a definition without cycles the start always returns, given calls
    as deep as the rank of task 0. *)
Theorem start_returns_on_acyclic def rank fuel variables w task0 :
  acyclic def rank = true →
  Def.tasks def !! 0 = Some task0 →
  rank (Task.id task0) < fuel →
  pool_ok def rank w →
  World.pending w = [] →
  ∃ w', turn def fuel (_start def variables w) = Some w' ∧ pool_ok def rank w'.
Proof.
  intros Hacyc H0 Hrank Hw Hp.
  destruct (start_turn def fuel variables w Hp) as (v & Hv & _ & _ & Hpool & _).
  rewrite Hv. simpl. rewrite H0. simpl.
  apply (execute_total def rank Hacyc); simpl; [by eapply acyclic_elim|done|].
  by eapply pool_ok_same.
Qed.

Lemma start_returns_on_acyclic_witness :
  ∃ w', turn Join.def 5 (_start Join.def JUndefined (init Join.def)) = Some w' ∧
        pool_ok Join.def (fun i => 4 - i) w'.
Proof.
  apply (start_returns_on_acyclic Join.def (fun i => 4 - i) 5 JUndefined
           (init Join.def) Join.start).
  - reflexivity.
  - reflexivity.
  - vm_compute. lia.
  - apply map_Forall_empty.
  - reflexivity.
Defined.

(** ** A task that flows to itself *)

(** A base node whose task has a flow to itself as its first outgoing
    flow, and that flow as its only incoming one, is executed again by its
    own completion, and so on: [execute] returns for no depth of calls. *)
Theorem self_loop_never_returns def t flow rest fuel n w :
  Task.outgoingFlows t = flow :: rest →
  Def.tasks def !! Flow.to flow = Some t →
  length (Task.incomingFlows t) = 1 →
  Def.taskTypes def (Task.type t) = None →
  Node.task n = t →
  Node.kind n = Base →
  execute def fuel n w = None.
Proof.
  intros Hout Hto Hin Hreg. revert n w.
  induction fuel as [|fuel IH]; intros n w Ht Hk; [done|].
  assert (Hs : ∀ v, successor def t (leave n JUndefined v) = Node.mk t 0 Base).
  { intros v. unfold successor. rewrite leave_nodePool, Ht, lookup_delete_eq.
    unfold createNode. by rewrite Hreg. }
  assert (Hf : ∀ v, followFlow def (execute def fuel) n (leave n JUndefined v) flow = None).
  { intros v. unfold followFlow, canFollowOutgoingFlow. rewrite Hk, Hto. simpl.
    rewrite Hs. unfold canExecuteNode. simpl. rewrite Hin. simpl.
    by apply IH. }
  simpl. unfold executeInternal. rewrite Hk.
  unfold complete_with. simpl. rewrite Ht, Hout in *. simpl.
  by rewrite Hf.
Qed.

Lemma self_loop_never_returns_witness :
  execute Loop.def 1000 (Node.mk Loop.again 1 Base) (init Loop.def) = None.
Proof.
  apply (self_loop_never_returns Loop.def Loop.again Loop.f11 [] 1000
           (Node.mk Loop.again 1 Base) (init Loop.def)); reflexivity.
Defined.

(** ** The engine's pool *)

(** [createProcessInstance] stores a new instance, in status NEW with an
    empty node pool, under the id taken from the counter.  When the live
    instances have ids below the counter, no live instance is replaced or
    removed, and ids stay below the counter. *)
Theorem createProcessInstance_fresh def engine :
  ids_below engine →
  let instance := (createProcessInstance def engine).1 in
  let engine' := (createProcessInstance def engine).2 in
  Instance.id instance = Some (Engine.nextProcessId engine) ∧
  Instance.status instance = NEW ∧
  Instance.nodePool instance = ∅ ∧
  Engine.processPool engine !! Engine.nextProcessId engine = None ∧
  Engine.processPool engine' !! Engine.nextProcessId engine = Some instance ∧
  (∀ k i, Engine.processPool engine !! k = Some i →
          Engine.processPool engine' !! k = Some i) ∧
  ids_below engine'.
Proof.
  intros Hbelow. simpl.
  assert (Hnone : Engine.processPool engine !! Engine.nextProcessId engine = None).
  { destruct (_ !! _) eqn:E; [|done].
    assert (Engine.nextProcessId engine < Engine.nextProcessId engine); [|lia].
    apply Hbelow. by eexists. }
  repeat split; try done.
  - apply lookup_insert_eq.
  - intros k i Hk. rewrite lookup_insert_ne; [done|]. intros <-. congruence.
  - intros k [i Hk]. simpl in *.
    destruct (decide (k = Engine.nextProcessId engine)) as [->|Hne]; [lia|].
    rewrite lookup_insert_ne in Hk by done.
    assert (k < Engine.nextProcessId engine); [|lia]. apply Hbelow. by eexists.
Qed.

Lemma createProcessInstance_fresh_witness :
  let engine := (createProcessInstance Linear.def (Engine.mk 0 ∅)).2 in
  let instance := (createProcessInstance Linear.def engine).1 in
  let engine' := (createProcessInstance Linear.def engine).2 in
  Instance.id instance = Some (Engine.nextProcessId engine) ∧
  Instance.status instance = NEW ∧
  Instance.nodePool instance = ∅ ∧
  Engine.processPool engine !! Engine.nextProcessId engine = None ∧
  Engine.processPool engine' !! Engine.nextProcessId engine = Some instance ∧
  (∀ k i, Engine.processPool engine !! k = Some i →
          Engine.processPool engine' !! k = Some i) ∧
  ids_below engine'.
Proof.
  intros engine.
  apply (createProcessInstance_fresh Linear.def engine).
  intros k [i Hk]. subst engine. simpl in *.
  destruct (decide (k = 0)) as [->|Hne]; [lia|].
  by rewrite lookup_insert_ne, lookup_empty in Hk.
Defined.

Lemma clearPool_filter engine :
  clearPool engine =
  Some (Engine.mk (Engine.nextProcessId engine)
          (filter (fun kv => ¬ evicted kv.2) (Engine.processPool engine))).
Proof.
  unfold clearPool, forOwn.
  change (map fst ?l) with (l.*1).
  rewrite clearPool_fold.
  - simpl. do 2 f_equal. apply map_filter_ext. intros i x Hi. simpl. split; [|tauto].
    intros Hn He. apply Hn. split; [|done].
    rewrite merge_sort_Permutation. apply list_elem_of_fmap.
    exists (i, x). split; [done|]. by apply elem_of_map_to_list.
  - rewrite merge_sort_Permutation. apply NoDup_fst_map_to_list.
  - intros k. rewrite merge_sort_Permutation.
    intros ((k' & x) & -> & Hkx)%list_elem_of_fmap.
    apply elem_of_map_to_list in Hkx. by eexists.
Qed.

(** Clearing the pool twice is clearing it once, and clearing keeps the
    ids of the live instances below the counter: no id is handed out a
    second time while its instance is live. *)
Theorem clearPool_idempotent engine :
  ∃ engine', clearPool engine = Some engine' ∧
    clearPool engine' = Some engine' ∧
    (ids_below engine → ids_below engine').
Proof.
  rewrite clearPool_filter. eexists. split; [done|]. split.
  - rewrite clearPool_filter. simpl. do 2 f_equal.
    apply map_filter_id. intros k i [_ Hev]%map_lookup_filter_Some. done.
  - intros Hbelow k [i [Hk _]%map_lookup_filter_Some]. simpl.
    apply Hbelow. by eexists.
Qed.

(** ** Loading an instance *)

Lemma deserialize_id def entity i :
  deserialize def entity = Some i → Instance.id i = Entity.id entity.
Proof.
  unfold deserialize. destruct (deserializeNodes _ _ _); simpl; [|done].
  by intros [= <-].
Qed.

Lemma findOne_stored id collection entity :
  findOne id collection = Some entity →
  entity ∈ collection ∧ Entity.id entity = Some id.
Proof.
  unfold findOne. intros [Hin H]%find_some.
  split; [by apply list_elem_of_In|by apply bool_decide_eq_true in H].
Qed.

Lemma findOne_none id collection :
  findOne id collection = None →
  ∀ entity, entity ∈ collection → Entity.id entity ≠ Some id.
Proof.
  unfold findOne. intros H entity Hin%list_elem_of_In.
  apply (find_none _ _ H) in Hin. by apply bool_decide_eq_false in Hin.
Qed.

(** [loadProcessInstance] returns the live instance itself when there is
    one and leaves the engine as it is.  Otherwise the instance it
    returns is the one [deserialize] builds from a stored document with
    the id asked for, and the engine afterwards is the old one with that
    instance put under the id, so a second load returns the same instance
    from the pool.  It returns [undefined], and leaves the engine as it
    is, exactly when the id is neither live nor in the store. *)
Theorem loadProcessInstance_caches def id engine collection result engine' :
  loadProcessInstance def id engine collection = Some (result, engine') →
  (∀ live, Engine.processPool engine !! id = Some live →
     result = Some live ∧ engine' = engine) ∧
  (∀ i, result = Some i → Engine.processPool engine !! id = None →
     (∃ entity, entity ∈ collection ∧ Entity.id entity = Some id ∧
                deserialize def entity = Some i) ∧
     Instance.id i = Some id ∧
     engine' = Engine.mk (Engine.nextProcessId engine)
                 (<[id := i]> (Engine.processPool engine))) ∧
  (result = None ↔
     Engine.processPool engine !! id = None ∧
     ∀ entity, entity ∈ collection → Entity.id entity ≠ Some id) ∧
  (result = None → engine' = engine) ∧
  loadProcessInstance def id engine' collection = Some (result, engine').
Proof.
  unfold loadProcessInstance.
  destruct (Engine.processPool engine !! id) as [live|] eqn:Hlive.
  { intros [= <- <-]. rewrite Hlive.
    split; [by intros live' [= <-]|].
    split; [by intros i _ Hnone|].
    split; [split; [done|by intros [Hnone _]]|].
    split; done. }
  destruct (findOne id collection) as [entity|] eqn:Hfind.
  - destruct (deserialize def entity) as [i|] eqn:Hd; simpl; [|done].
    pose proof (deserialize_id _ _ _ Hd) as Hid.
    destruct (findOne_stored _ _ _ Hfind) as [Hin Heid].
    rewrite Heid in Hid. rewrite Hid. simpl.
    intros [= <- <-]. simpl. rewrite lookup_insert_eq.
    split; [done|].
    split; [intros i' [= <-] _; split; [by exists entity|done]|].
    split; [split; [done|intros [_ Hno]; by destruct (Hno entity Hin)]|].
    split; done.
  - intros [= <- <-]. rewrite Hlive.
    split; [done|].
    split; [done|].
    split; [split; [intros _; split; [done|by apply findOne_none]|done]|].
    split; done.
Qed.

Lemma loadProcessInstance_caches_witness :
  let engine := Engine.mk 1 ∅ in
  let collection := World.collection suspended in
  let loaded := default (None, engine) (loadProcessInstance Service.def 0 engine collection) in
  (∀ live, Engine.processPool engine !! 0 = Some live →
     loaded.1 = Some live ∧ loaded.2 = engine) ∧
  (∀ i, loaded.1 = Some i → Engine.processPool engine !! 0 = None →
     (∃ entity, entity ∈ collection ∧ Entity.id entity = Some 0 ∧
                deserialize Service.def entity = Some i) ∧
     Instance.id i = Some 0 ∧
     loaded.2 = Engine.mk (Engine.nextProcessId engine)
                  (<[0 := i]> (Engine.processPool engine))) ∧
  (loaded.1 = None ↔
     Engine.processPool engine !! 0 = None ∧
     ∀ entity, entity ∈ collection → Entity.id entity ≠ Some 0) ∧
  (loaded.1 = None → loaded.2 = engine) ∧
  loadProcessInstance Service.def 0 loaded.2 collection = Some (loaded.1, loaded.2).
Proof.
  intros engine collection loaded.
  apply (loadProcessInstance_caches Service.def 0 engine collection loaded.1 loaded.2).
  vm_compute. reflexivity.
Defined.

Lemma findOne_last id docs d :
  Forall (fun d' => Entity.id d' ≠ Some id) docs →
  Entity.id d = Some id →
  findOne id (docs ++ [d]) = Some d.
Proof.
  intros Hdocs Hd. unfold findOne.
  induction Hdocs as [|d' docs Hd' _ IH]; simpl.
  - by rewrite bool_decide_eq_true_2.
  - by rewrite bool_decide_eq_false_2.
Qed.

(** Through the store and back: an instance that is saved for the first
    time and is not (or no longer) in the live pool is found again by
    [loadProcessInstance] under its id, with the status, variables, error
    and pool membership it was saved with; its nodes are built anew by
    [createNode]. *)
Theorem load_after_save def id engine cb w :
  Instance._id (World.inst w) = None →
  Instance.id (World.inst w) = Some id →
  pool_indexed def (Instance.nodePool (World.inst w)) →
  Forall (fun d => Entity.id d ≠ Some id) (World.collection w) →
  Engine.processPool engine !! id = None →
  ∃ i engine',
    loadProcessInstance def id engine (World.collection (save def cb w))
      = Some (Some i, engine') ∧
    Engine.processPool engine' !! id = Some i ∧
    Instance.id i = Some id ∧
    Instance.status i = Instance.status (World.inst w) ∧
    Instance.variables i = Instance.variables (World.inst w) ∧
    Instance.error i = Instance.error (World.inst w) ∧
    Instance.nodePool i = rebuilt def <$> Instance.nodePool (World.inst w).
Proof.
  intros H_id Hid Hwf Hdocs Hlive.
  unfold loadProcessInstance. rewrite Hlive.
  unfold save. simpl. rewrite H_id. simpl.
  rewrite findOne_last; [|done|done].
  assert (Hd : deserialize def (withId (length (World.collection w))
                 (serialize def (World.inst w))) =
               deserialize def (serialize def (World.inst w))) by done.
  rewrite Hd, deserialize_serialize by done. simpl. rewrite Hid. simpl.
  eexists _, _. split; [done|]. simpl. rewrite lookup_insert_eq. done.
Qed.

Lemma load_after_save_witness :
  let w := World.mk Join.waiting [] [] [] in
  let w0 := with_inst (set__id None) w in
  ∃ i engine',
    loadProcessInstance Join.def 0 (Engine.mk 1 ∅) (World.collection (save Join.def CbNone w0))
      = Some (Some i, engine') ∧
    Engine.processPool engine' !! 0 = Some i ∧
    Instance.id i = Some 0 ∧
    Instance.status i = Instance.status (World.inst w0) ∧
    Instance.variables i = Instance.variables (World.inst w0) ∧
    Instance.error i = Instance.error (World.inst w0) ∧
    Instance.nodePool i = rebuilt Join.def <$> Instance.nodePool (World.inst w0).
Proof.
  intros w w0.
  apply (load_after_save Join.def 0 (Engine.mk 1 ∅) CbNone w0).
  - reflexivity.
  - reflexivity.
  - unfold pool_indexed. simpl.
    apply map_Forall_insert_2; [by split|].
    apply map_Forall_insert_2; [by split|].
    apply map_Forall_empty.
  - constructor.
  - reflexivity.
Defined.

(** ** Completing a task twice through the engine *)

(** On a definition without cycles, once [completeTask] has completed a
    task of an instance, a second [completeTask] for the same task fails:
    the node is no longer in [nodePool]. *)
Theorem completeTask_twice_fails def rank fuel fuel' taskId variables variables' w w' :
  acyclic def rank = true →
  pool_ok def rank w →
  completeTask def fuel taskId variables w = Some w' →
  completeTask def fuel' taskId variables' w' = None.
Proof.
  intros Hacyc Hw Hc. unfold completeTask in *.
  destruct (Instance.nodePool (World.inst w) !! taskId) as [node|] eqn:Hnode;
    simpl in Hc; [|done].
  destruct (Hw _ _ Hnode) as [Hid Hfl].
  apply (completed_node_frame def rank Hacyc) in Hc as [Hgone _]; try done.
  rewrite Hid in Hgone. by rewrite Hgone.
Qed.

Lemma completeTask_twice_fails_witness :
  completeTask Service.def 2 1 (Service.x 2)
    (default suspended (completeTask Service.def 2 1 (Service.x 2) suspended)) = None.
Proof.
  apply (completeTask_twice_fails Service.def Service.rank 2 2 1 (Service.x 2)
           (Service.x 2) suspended).
  - reflexivity.
  - unfold pool_ok, suspended. simpl.
    apply map_Forall_insert_2; [by split|apply map_Forall_empty].
  - vm_compute. reflexivity.
Defined.

(** ** The serialized node pool *)

(** [serialize] writes one entry per live node, none twice and none
    dropped: the entries are exactly the serialized nodes of the pool,
    each with the instance's id, the node's counter and its task's id, and
    they are as many as the pool has nodes. *)
Theorem serialize_nodePool def i :
  length (Entity.nodePool (serialize def i)) = size (Instance.nodePool i) ∧
  ∀ e, e ∈ Entity.nodePool (serialize def i) ↔
       ∃ k n, Instance.nodePool i !! k = Some n ∧
              e = NodeEntity.mk (Instance.id i) (Node.incomingFlowCompletedNumber n)
                    (Task.id (Node.task n)).
Proof.
  unfold serialize. simpl. split.
  - rewrite length_map. unfold forOwn.
    rewrite merge_sort_Permutation. apply length_map_to_list.
  - intros e. change (map ?f ?l) with (f <$> l). rewrite list_elem_of_fmap. split.
    + intros ([k n] & -> & Hkn). apply elem_of_forOwn in Hkn. by exists k, n.
    + intros (k & n & Hkn & ->). exists (k, n). split; [done|].
      by apply elem_of_forOwn.
Qed.
